(** * Logo extraction pipeline and logo replacement: a shallow embedding

    The development follows [src/extract_logos.py] ([LogoExtractor]) and
    [src/replace_hard_feelings_logos.py] ([HardFeelingsLogoReplacer]).

    The Python code works on the file system and drives the external tools
    [qlmanage] and [sips] through [subprocess.run].  The file system is an
    explicit state, every [subprocess.run] is recorded in a trace, and the
    behaviour of the external tools is a parameter of the development. *)

From Stdlib Require Import ZArith String Ascii List Lia Bool.
From stdpp Require Import base option list gmap strings pretty.

Open Scope string_scope.
Open Scope Z_scope.

Set Warnings "-clear-no-such-hyp".

(** ** Strings: the pieces of [str], [fnmatch] and [pathlib] the code uses *)

Module Str.

(** [pattern] matched as [pathlib.Path.glob] matches one path component:
    ["*"] stands for any run of characters, every other character for
    itself (the patterns of the code have no [?] and no bracket). *)
Fixpoint wild (pat : string) : string -> bool :=
  match pat with
  | EmptyString => fun s => match s with EmptyString => true | _ => false end
  | String c pat' =>
      if Ascii.eqb c "*" then
        fix star (s : string) : bool :=
          wild pat' s ||
          match s with
          | EmptyString => false
          | String _ s' => star s'
          end
      else
        fun s =>
          match s with
          | String d s' => Ascii.eqb c d && wild pat' s'
          | EmptyString => false
          end
  end.

(** [s.rfind('.')] *)
Fixpoint rfind_dot (s : string) : option nat :=
  match s with
  | EmptyString => None
  | String c s' =>
      match rfind_dot s' with
      | Some i => Some (S i)
      | None => if Ascii.eqb c "." then Some O else None
      end
  end.

(** [PurePath.stem]: the name without its last suffix; a leading or a
    trailing dot does not start a suffix. *)
Definition stem (name : string) : string :=
  match rfind_dot name with
  | Some i =>
      if (0 <? i)%nat && (i <? String.length name - 1)%nat
      then substring 0 i name
      else name
  | None => name
  end.

(** [s.startswith(p)] and [s[n:]] *)
Fixpoint starts_with (p s : string) : bool :=
  match p, s with
  | EmptyString, _ => true
  | String a p', String b s' => Ascii.eqb a b && starts_with p' s'
  | String _ _, EmptyString => false
  end.

(** [s.replace(old, new)] for a non-empty [old]: the occurrences of [old]
    are found from left to right and do not overlap.  [skip] counts the
    characters of a matched occurrence that are still to be dropped. *)
Fixpoint replace_from (old new : string) (skip : nat) (s : string) : string :=
  match s with
  | EmptyString => EmptyString
  | String c s' =>
      match skip with
      | S k => replace_from old new k s'
      | O =>
          if starts_with old s
          then new +:+ replace_from old new (String.length old - 1) s'
          else String c (replace_from old new O s')
      end
  end.

Definition replace (old new s : string) : string := replace_from old new O s.

(** [old in s] *)
Fixpoint contains (old s : string) : bool :=
  starts_with old s ||
  match s with
  | EmptyString => false
  | String _ s' => contains old s'
  end.

(** A pattern without ["*"] *)
Fixpoint star_free (pat : string) : bool :=
  match pat with
  | EmptyString => true
  | String c pat' => negb (Ascii.eqb c "*") && star_free pat'
  end.

(** Some proper, non-empty end of [old] starts [t]: an occurrence of [old]
    could begin before [t] and end inside it. *)
Fixpoint straddles (old t : string) : bool :=
  match old with
  | EmptyString => false
  | String _ old' =>
      (negb (String.eqb old' EmptyString) && starts_with old' t) || straddles old' t
  end.

End Str.

(** ** Images and the file system *)

Record pixel := Pixel { red : Z; green : Z; blue : Z; alpha : Z }.

Record image := Image { img_width : Z; img_height : Z; img_pixels : list pixel }.

(** The four directories the extractor works in: [pages_dir],
    [processed_dir] and [final_dir] under [output_dir], and the site's
    [images/]. *)
Inductive folder := PagesDir | ProcessedDir | FinalDir | ImagesDir.

#[global] Instance folder_eq_dec : EqDecision folder.
Proof. solve_decision. Defined.

Definition path : Type := folder * string.

(** The argument vectors handed to [subprocess.run]. *)
Inductive command :=
| Qlmanage (size : Z) (out : folder) (pdf : string)
    (* qlmanage -t -s size -o out pdf *)
| SipsFormat (pdf : string) (pattern : path)
    (* sips -s format png pdf --out pattern *)
| SipsCrop (h w y x : Z) (src out : path)
    (* sips -c h w -z y x src --out out *)
| SipsResample (size : Z) (src out : path)
    (* sips -Z size src --out out *)
| SipsInvert (src out : path).
    (* sips -i src --out out *)

(** [docs] are the source documents that exist, [made] the directories
    created so far (as lists of path components), [trace] the commands run
    so far, oldest first. *)
Record FS := mkFS {
  docs : gset string;
  made : gset (list string);
  pages : gmap string image;
  processed : gmap string image;
  final : gmap string image;
  images : gmap string image;
  trace : list command
}.

Definition dir_of (f : folder) (fs : FS) : gmap string image :=
  match f with
  | PagesDir => pages fs
  | ProcessedDir => processed fs
  | FinalDir => final fs
  | ImagesDir => images fs
  end.

Definition read (p : path) (fs : FS) : option image := dir_of p.1 fs !! p.2.

Definition write (p : path) (img : image) (fs : FS) : FS :=
  match p.1 with
  | PagesDir =>
      mkFS (docs fs) (made fs) (<[p.2 := img]> (pages fs)) (processed fs) (final fs) (images fs) (trace fs)
  | ProcessedDir =>
      mkFS (docs fs) (made fs) (pages fs) (<[p.2 := img]> (processed fs)) (final fs) (images fs) (trace fs)
  | FinalDir =>
      mkFS (docs fs) (made fs) (pages fs) (processed fs) (<[p.2 := img]> (final fs)) (images fs) (trace fs)
  | ImagesDir =>
      mkFS (docs fs) (made fs) (pages fs) (processed fs) (final fs) (<[p.2 := img]> (images fs)) (trace fs)
  end.

Definition write_all (f : folder) (files : list (string * image)) (fs : FS) : FS :=
  foldl (fun acc nf => write (f, nf.1) nf.2 acc) fs files.

Definition log (c : command) (fs : FS) : FS :=
  mkFS (docs fs) (made fs) (pages fs) (processed fs) (final fs) (images fs) (trace fs ++ [c]).

Definition mkdirs (ds : list (list string)) (fs : FS) : FS :=
  mkFS (docs fs) (made fs ∪ list_to_set ds) (pages fs) (processed fs) (final fs) (images fs) (trace fs).

(** ** The external tools

    What a subprocess does is not code of the repository; it is a parameter.
    A rasterizer ([qlmanage], [sips -s format png]) either cannot be started
    or exits with a status after writing some page files.  A [sips] raster
    operation reads one file and, by the contract of the tool, either exits
    zero having written its one output raster, or exits non-zero having
    written nothing, or cannot be started.  [listdir] is the order in which
    a directory lists its entries. *)

Inductive raster_outcome :=
| RasterExited (returncode : Z) (written : list (string * image))
| RasterNotStarted.

Inductive sips_outcome :=
| Wrote (out : image)
| Failed
| NotStarted.

Record Tools := mkTools {
  rasterize : command -> raster_outcome;
  sips : command -> option image -> sips_outcome;
  listdir : gmap string image -> list string
}.

(** ** Computations that may raise *)

Inductive exn := CalledProcessError | OSError | KeyError.

Inductive result (A : Type) :=
| Ret (a : A)
| Raise (e : exn).
Arguments Ret {A} a.
Arguments Raise {A} e.

Definition M (A : Type) : Type := FS -> result A * FS.

Definition ret {A} (a : A) : M A := fun fs => (Ret a, fs).

Definition bind {A B} (m : M A) (k : A -> M B) : M B :=
  fun fs =>
    match m fs with
    | (Ret a, fs') => k a fs'
    | (Raise e, fs') => (Raise e, fs')
    end.

Notation "'let!' x ':=' m 'in' k" := (bind m (fun x => k))
  (at level 10, x name, m at level 100, k at level 200).
Notation "'run' m 'then' k" := (bind m (fun _ => k))
  (at level 10, m at level 100, k at level 200).

(** [for x in xs: body(x)] *)
Fixpoint for_each {X} (xs : list X) (body : X -> M unit) : M unit :=
  match xs with
  | [] => ret tt
  | x :: xs' => run body x then for_each xs' body
  end.

(** [try: m  except subprocess.CalledProcessError: pass] *)
Definition except_called_process_error (m : M unit) : M unit :=
  fun fs =>
    match m fs with
    | (Raise CalledProcessError, fs') => (Ret tt, fs')
    | r => r
    end.

(** [enumerate(xs)] *)
Definition enumerate {X} (xs : list X) : list (nat * X) :=
  zip (seq 0 (length xs)) xs.

(** ** [LogoExtractor] *)

Inductive role := main_logo | icon.

Definition role_name (r : role) : string :=
  match r with
  | main_logo => "main_logo"
  | icon => "icon"
  end.

Module Region.
Record t := mk { x : Z; y : Z; width : Z; height : Z; type : role }.
End Region.

(** [str(i)] for the index of [enumerate] *)
Definition str_nat (i : nat) : string := pretty i.

Section LogoExtractor.

Variable T : Tools.

(** [subprocess.run(cmd, check=True, capture_output=True)] for a [sips]
    operation reading [src] and writing [out]. *)
Definition subprocess_run_check (c : command) (src out : path) : M unit :=
  fun fs =>
    let fs1 := log c fs in
    match sips T c (read src fs) with
    | Wrote img => (Ret tt, write out img fs1)
    | Failed => (Raise CalledProcessError, fs1)
    | NotStarted => (Raise OSError, fs1)
    end.

(** The pattern of the three image loops:
    [try: subprocess.run(cmd, check=True, ...)
     except subprocess.CalledProcessError: ...] *)
Definition try_run (c : command) (src out : path) : M unit :=
  except_called_process_error (subprocess_run_check c src out).

(** [dir.glob(pattern)]: the entries of the directory, in listing order,
    whose name matches.  The directory is listed once, when the loop over
    the result starts; files written by the loop do not join it. *)
Definition glob (pat : string) (d : gmap string image) : list string :=
  List.filter (Str.wild pat) (listdir T d).

(** [__init__]: records the paths and creates the directory structure with
    [mkdir(parents=True, exist_ok=True)]. *)
Definition parents_and_self (p : list string) : list (list string) :=
  List.map (fun n => take n p) (seq 1 (length p)).

Definition __init__ (output_dir : list string) (fs : FS) : FS :=
  foldl (fun acc d => mkdirs (parents_and_self d) acc) fs
    [(output_dir ++ ["pages"])%list;
     (output_dir ++ ["processed"])%list;
     (output_dir ++ ["final"])%list].

(** A rasterization strategy: the subprocess is run without [check], the
    strategy returns [returncode == 0]. *)
Definition run_rasterizer (c : command) : M bool :=
  fun fs =>
    let fs1 := log c fs in
    match rasterize T c with
    | RasterExited code files => (Ret (code =? 0), write_all PagesDir files fs1)
    | RasterNotStarted => (Raise OSError, fs1)
    end.

Definition _extract_with_qlmanage (pdf_path : string) : M bool :=
  run_rasterizer (Qlmanage 3000 PagesDir pdf_path).

Definition _extract_with_sips (pdf_path : string) : M bool :=
  run_rasterizer (SipsFormat pdf_path (PagesDir, "page_%d.png")).

Definition _extract_with_preview (pdf_path : string) : M bool :=
  ret false.

(** The loop of [extract_pdf_pages]: [try: if method(): return True
    except Exception: continue], then [return False]. *)
Fixpoint try_methods (methods : list (M bool)) : M bool :=
  match methods with
  | [] => ret false
  | method :: rest =>
      fun fs =>
        match method fs with
        | (Ret true, fs') => (Ret true, fs')
        | (Ret false, fs') => try_methods rest fs'
        | (Raise _, fs') => try_methods rest fs'
        end
  end.

Definition extract_pdf_pages (pdf_path : string) : M bool :=
  try_methods
    [_extract_with_qlmanage pdf_path;
     _extract_with_sips pdf_path;
     _extract_with_preview pdf_path].

Definition placeholder_regions : list Region.t :=
  [Region.mk 100 100 300 100 main_logo;
   Region.mk 200 300 150 150 icon].

Definition detect_logo_regions (fs : FS) : list (string * list Region.t) :=
  List.map (fun page_file => (page_file, placeholder_regions))
    (glob "*.png" (pages fs)).

Definition crop_output_name (page : string) (i : nat) (r : Region.t) : string :=
  page +:+ "_logo_" +:+ str_nat i +:+ "_" +:+ role_name (Region.type r) +:+ ".png".

(** [cmd = ['sips', '-c', height, width, '-z', y, x, page_file, '--out', output_file]] *)
Definition crop_cmd (page : string) (ir : nat * Region.t) : command :=
  let region := ir.2 in
  SipsCrop (Region.height region) (Region.width region)
           (Region.y region) (Region.x region)
           (PagesDir, page) (ProcessedDir, crop_output_name page ir.1 region).

Definition crop_region (page : string) (ir : nat * Region.t) : M unit :=
  try_run (crop_cmd page ir)
    (PagesDir, page) (ProcessedDir, crop_output_name page ir.1 ir.2).

Definition crop_logos (logo_regions : list (string * list Region.t)) : M unit :=
  for_each logo_regions (fun page_data =>
    for_each (enumerate page_data.2) (crop_region page_data.1)).

Definition sizes : list (Z * string) :=
  [(1000, "large"); (500, "medium"); (200, "small")].

Definition variant_name (stem suffix : string) : string :=
  stem +:+ "_" +:+ suffix +:+ ".png".

(** [cmd = ['sips', '-Z', size, logo_file, '--out', output_file]] *)
Definition resize_cmd (logo_file : string) (ss : Z * string) : command :=
  SipsResample ss.1 (ProcessedDir, logo_file)
    (FinalDir, variant_name (Str.stem logo_file) ss.2).

Definition resize_logo (logo_file : string) (ss : Z * string) : M unit :=
  try_run (resize_cmd logo_file ss)
    (ProcessedDir, logo_file) (FinalDir, variant_name (Str.stem logo_file) ss.2).

Definition optimize_logos : M unit :=
  fun fs =>
    for_each (glob "*.png" (processed fs))
      (fun logo_file => for_each sizes (resize_logo logo_file)) fs.

Definition white_name (logo_file : string) : string :=
  Str.replace "_large" EmptyString (Str.stem logo_file) +:+ "_white_large.png".

(** [cmd = ['sips', '-i', logo_file, '--out', white_file]] *)
Definition invert_cmd (logo_file : string) : command :=
  SipsInvert (FinalDir, logo_file) (FinalDir, white_name logo_file).

Definition invert_logo (logo_file : string) : M unit :=
  try_run (invert_cmd logo_file)
    (FinalDir, logo_file) (FinalDir, white_name logo_file).

Definition create_white_versions : M unit :=
  fun fs => for_each (glob "*_large.png" (final fs)) invert_logo fs.

(** [shutil.copy2(src, dst)]; the directory of [dst] ([images/], which the
    extractor does not create) is taken to exist. *)
Definition copy2 (src dst : path) : M unit :=
  fun fs =>
    match read src fs with
    | Some img => (Ret tt, write dst img fs)
    | None => (Raise OSError, fs)
    end.

(** [matches = list(final_dir.glob(pat)); if matches: copy2(matches[0], dst)] *)
Definition publish (pat : string) (dst : string) : M unit :=
  fun fs =>
    match glob pat (final fs) with
    | first :: _ => copy2 (FinalDir, first) (ImagesDir, dst) fs
    | [] => (Ret tt, fs)
    end.

Definition generate_web_assets : M unit :=
  run publish "*main_logo*large.png" "client-logo.png" then
  run publish "*white*large.png" "client-logo-white.png" then
  publish "*icon*large.png" "client-icon.png".

Definition run_extraction (pdf_path : string) : M bool :=
  fun fs =>
    if negb (bool_decide (pdf_path ∈ docs fs)) then (Ret false, fs)
    else
      (let! extracted := extract_pdf_pages pdf_path in
       if negb extracted then ret false
       else
         fun fs1 =>
           (run crop_logos (detect_logo_regions fs1) then
            run optimize_logos then
            run create_white_versions then
            run generate_web_assets then
            ret true) fs1) fs.

(** The bodies of the two nested loops, on the items of their work lists
    ([crop_items], [resize_items]). *)
Definition crop_step (it : string * (nat * Region.t)) : M unit :=
  crop_region it.1 it.2.

Definition resize_step (it : string * (Z * string)) : M unit :=
  resize_logo it.1 it.2.

End LogoExtractor.

(** ** Properties of rasters and regions used by the data model *)

(** Modelled from the spec: the colour inversion of the Variant Deriver,
    "a per-pixel channel inversion (R,G,B -> 255-R,255-G,255-B; alpha
    preserved)".  The code hands the inversion to the external [sips] tool;
    no function of [src/] computes it. *)
Definition invert_channel (v : Z) : Z := 255 - v.

Definition invert_pixel (p : pixel) : pixel :=
  Pixel (invert_channel (red p)) (invert_channel (green p))
        (invert_channel (blue p)) (alpha p).

Definition invert_image (i : image) : image :=
  Image (img_width i) (img_height i) (List.map invert_pixel (img_pixels i)).

Definition channel_ok (v : Z) : Prop := 0 <= v <= 255.

Definition pixel_ok (p : pixel) : Prop :=
  channel_ok (red p) /\ channel_ok (green p) /\ channel_ok (blue p) /\ channel_ok (alpha p).

Definition dims (i : image) : Z * Z := (img_width i, img_height i).


(** The invariant of a LogoRegion on its page. *)
Definition region_in_page (page : image) (r : Region.t) : bool :=
  (0 <=? Region.x r) && (0 <=? Region.y r) &&
  (Region.x r + Region.width r <=? img_width page) &&
  (Region.y r + Region.height r <=? img_height page).

Definition region_valid (page : image) (r : Region.t) : bool :=
  (0 <? Region.width r) && (0 <? Region.height r) && region_in_page page r.

(** ** Assumptions on the environment *)

(** A directory lists each of its entries once, and nothing else. *)
Definition listing_ok (T : Tools) : Prop :=
  forall d : gmap string image,
    NoDup (listdir T d) /\ forall n, n ∈ listdir T d <-> is_Some (d !! n).


(** Every [sips] operation on an existing file succeeds. *)
Definition sips_succeeds (T : Tools) : Prop :=
  forall c img, exists out, sips T c (Some img) = Wrote out.






(** The work lists of the two nested loops. *)
Definition crop_items (logo_regions : list (string * list Region.t))
  : list (string * (nat * Region.t)) :=
  flat_map (fun page_data => List.map (pair page_data.1) (enumerate page_data.2))
    logo_regions.

Definition resize_items (logo_files : list string) : list (string * (Z * string)) :=
  flat_map (fun logo_file => List.map (pair logo_file) sizes) logo_files.

(** The state after a run of strategies none of which returned [True]. *)
Inductive all_fail : list (M bool) -> FS -> FS -> Prop :=
| all_fail_nil fs : all_fail [] fs fs
| all_fail_cons m ms fs fs1 fs2 r :
    m fs = (r, fs1) -> r <> Ret true -> all_fail ms fs1 fs2 ->
    all_fail (m :: ms) fs fs2.

(** A rasterizer that exited with status zero, and the files it wrote. *)
Definition exit_zero (o : raster_outcome) : bool :=
  match o with
  | RasterExited code _ => code =? 0
  | RasterNotStarted => false
  end.

Definition written_by (o : raster_outcome) : list (string * image) :=
  match o with
  | RasterExited _ files => files
  | RasterNotStarted => []
  end.




(** The name of the inverted variant in the words of the spec: the size
    suffix is stripped from the name of the large variant, the ["white"]
    marker is inserted, and ["large"] is appended again.  It is compared
    with [white_name], which is what the code computes. *)
Fixpoint strip_suffix (suffix s : string) : string :=
  if String.eqb s suffix then EmptyString
  else match s with
       | EmptyString => EmptyString
       | String c s' => String c (strip_suffix suffix s')
       end.

Definition spec_white_name (logo_file : string) : string :=
  strip_suffix "_large" (Str.stem logo_file) +:+ "_white" +:+ "_large.png".

(** ** A tool set to run the pipeline on examples *)

(** [sips -Z size]: the longer side becomes [size], the other side is
    scaled and rounded to the nearest pixel. *)
Definition scale_round (a size b : Z) : Z := (2 * a * size + b) / (2 * b).

Definition resample_max (size : Z) (i : image) : image :=
  if img_height i <=? img_width i
  then Image size (scale_round (img_height i) size (img_width i)) (img_pixels i)
  else Image (scale_round (img_width i) size (img_height i)) size (img_pixels i).

(** The sample [sips]: it fails on a missing file only.  Cropping gives a
    raster of the asked size, [-Z] resamples (a raster without pixels is
    left as it is), [-i] inverts as the spec describes. *)
Definition sample_sips (c : command) (src : option image) : sips_outcome :=
  match src with
  | None => Failed
  | Some i =>
      match c with
      | SipsCrop h w _ _ _ _ => Wrote (Image w h (img_pixels i))
      | SipsResample size _ _ =>
          if (0 <? img_width i) && (0 <? img_height i)
          then Wrote (resample_max size i) else Wrote i
      | SipsInvert _ _ => Wrote (invert_image i)
      | _ => Wrote i
      end
  end.

(** The sample tool, except that the commands in [fails] exit non-zero. *)
Definition failing_sips (fails : command -> bool) (c : command) (src : option image)
  : sips_outcome :=
  if fails c then Failed else sample_sips c src.

Definition crops_main_logo (c : command) : bool :=
  match c with
  | SipsCrop _ _ _ _ _ out => Str.wild "*main_logo.png" out.2
  | _ => false
  end.

Definition sample_listdir (d : gmap string image) : list string :=
  (map_to_list d).*1.

(** [qlmanage] writes one thumbnail named after the document. *)
Definition one_page (page : image) (c : command) : raster_outcome :=
  match c with
  | Qlmanage _ _ pdf => RasterExited 0 [(pdf +:+ ".png", page)]
  | _ => RasterNotStarted
  end.

Definition sample_tools (page : image) : Tools :=
  mkTools (one_page page) sample_sips sample_listdir.

Definition failing_tools (fails : command -> bool) (page : image) : Tools :=
  mkTools (one_page page) (failing_sips fails) sample_listdir.

Definition sample_page : image :=
  Image 3000 2000 [Pixel 255 255 255 255; Pixel 12 34 56 255].

Definition empty_fs (documents : gset string) : FS :=
  mkFS documents ∅ ∅ ∅ ∅ ∅ [].

(** ** [HardFeelingsLogoReplacer] *)

Module Replacer.

(** A file is text that decodes as UTF-8, or other bytes. *)
Inductive file :=
| Text (content : string)
| Binary (data : list Z).

(** What the replacer does with a path. *)
Inductive access :=
| Exists (p : string)          (* os.path.exists(p) *)
| Read (p : string)            (* open(p, 'r').read() *)
| Written (p : string)         (* open(p, 'w').write(..) *)
| Copied (src dst : string).   (* shutil.copy2(src, dst) *)

Record state := mkState {
  files : gmap string file;
  accesses : list access
}.

Definition note (a : access) (st : state) : state :=
  mkState (files st) (accesses st ++ [a]).

Definition html_files : list string :=
  ["index.html"; "menu.html"; "about-us.html"; "401.html"; "404.html";
   "detail_thali-menu.html"; "detail_upcoming-events.html";
   "reference/changelog.html"; "reference/dls.html"; "reference/license.html"].

(** The dictionaries, in insertion order. *)
Definition source_logos : list (string * string) :=
  [("main", "assets/logos/icons/Hard Feelings Tacos Logo (1).png");
   ("white", "assets/logos/icons/Hard Feelings Tacos Logo (2).png")].

Definition target_logos : list (string * string) :=
  [("main", "images/hard-feelings-logo.png");
   ("white", "images/hard-feelings-logo-white.png")].

Definition logo_replacements : list (string * string) :=
  [("client-logo.png", "hard-feelings-logo.png");
   ("client-logo-white.png", "hard-feelings-logo-white.png");
   ("thali-logo.svg", "hard-feelings-logo.png");
   ("thali-logo-white.svg", "hard-feelings-logo-white.png")].

Definition css_file : string := "css/hard-feelings-tacos.webflow.css".

(** [d[key]] *)
Fixpoint getitem (d : list (string * string)) (key : string) : option string :=
  match d with
  | [] => None
  | (k, v) :: d' => if String.eqb k key then Some v else getitem d' key
  end.

Definition path_exists (p : string) (st : state) : bool :=
  bool_decide (is_Some (files st !! p)).

(** [shutil.copy2]; it is called on a source that [os.path.exists] has just
    found, into [images/], which is taken to exist. *)
Definition copy2 (src dst : string) (st : state) : state :=
  match files st !! src with
  | Some f => mkState (<[dst := f]> (files st)) (accesses st ++ [Copied src dst])
  | None => note (Copied src dst) st
  end.

Fixpoint copy_logo_files_from (items : list (string * string)) (st : state)
  : result bool * state :=
  match items with
  | [] => (Ret true, st)
  | (logo_type, source_path) :: rest =>
      match getitem target_logos logo_type with
      | None => (Raise KeyError, st)
      | Some target_path =>
          let st1 := note (Exists source_path) st in
          if path_exists source_path st
          then copy_logo_files_from rest (copy2 source_path target_path st1)
          else (Ret false, st1)
      end
  end.

Definition copy_logo_files (st : state) : result bool * state :=
  copy_logo_files_from source_logos st.

(** The loop over [logo_replacements.items()]. *)
Definition apply_replacements (content : string) : string :=
  foldl (fun acc on => Str.replace on.1 on.2 acc) content logo_replacements.

Definition replace_logos_in_file (file_path : string) (st : state) : bool * state :=
  let st1 := note (Exists file_path) st in
  match files st !! file_path with
  | None => (false, st1)
  | Some f =>
      let st2 := note (Read file_path) st1 in
      match f with
      | Binary _ => (false, st2)     (* UnicodeDecodeError, caught *)
      | Text original_content =>
          let content := apply_replacements original_content in
          if negb (String.eqb content original_content)
          then (true, mkState (<[file_path := Text content]> (files st2))
                              (accesses st2 ++ [Written file_path]))
          else (false, st2)
      end
  end.

Definition newline : string := String "010" EmptyString.

Definition logo_css : string :=
  String.concat newline
    [EmptyString; "/* Hard Feelings Tacos Logo Styles */";
     ".nav-logo img,"; ".logo-footer img {";
     "    max-height: 60px;"; "    width: auto;"; "    object-fit: contain;"; "}";
     EmptyString; "@media (max-width: 768px) {";
     "    .nav-logo img,"; "    .logo-footer img {";
     "        max-height: 50px;"; "    }"; "}";
     EmptyString; "/* Ensure logos maintain aspect ratio */";
     ".nav-logo img {"; "    height: auto;"; "    max-width: 200px;"; "}";
     EmptyString; ".logo-footer img {"; "    height: auto;"; "    max-width: 150px;"; "}"; EmptyString].

Definition update_css_styles (st : state) : state :=
  let st1 := note (Exists css_file) st in
  match files st !! css_file with
  | None => st1
  | Some f =>
      let st2 := note (Read css_file) st1 in
      match f with
      | Binary _ => st2              (* UnicodeDecodeError, caught *)
      | Text content =>
          let content' :=
            if Str.contains "Client Logo Styles" content
            then Str.replace "Client Logo Styles" "Hard Feelings Tacos Logo Styles"
                   (Str.replace "/* Client Logo Styles */"
                                "/* Hard Feelings Tacos Logo Styles */" content)
            else content +:+ logo_css in
          mkState (<[css_file := Text content']> (files st2))
                  (accesses st2 ++ [Written css_file])
      end
  end.

(** The loop over [html_files], counting the updated files. *)
Fixpoint replace_in_files (paths : list string) (updated_files : nat) (st : state)
  : nat * state :=
  match paths with
  | [] => (updated_files, st)
  | html_file :: rest =>
      match replace_logos_in_file html_file st with
      | (true, st') => replace_in_files rest (updated_files + 1) st'
      | (false, st') => replace_in_files rest updated_files st'
      end
  end.

Definition replace_all_logos (st : state) : result bool * state :=
  match copy_logo_files st with
  | (Ret true, st1) =>
      let '(updated_files, st2) := replace_in_files html_files 0 st1 in
      let st3 := update_css_styles st2 in
      (Ret (0 <? updated_files)%nat, st3)
  | (Ret false, st1) => (Ret false, st1)
  | (Raise e, st1) => (Raise e, st1)
  end.



End Replacer.

(** ** Relations between the state before and the state after *)

(** Every file of [fs] is still there in [fs'], with whatever content. *)
Definition keeps_files (fs fs' : FS) : Prop :=
  forall f n, is_Some (dir_of f fs !! n) -> is_Some (dir_of f fs' !! n).

(** [m] relates the state it starts in to the state it ends in, whether it
    returns or raises. *)
Definition respects {A} (R : FS -> FS -> Prop) (m : M A) : Prop :=
  forall fs r fs', m fs = (r, fs') -> R fs fs'.

(** The canonical names in [images/]. *)
Definition published_names : list string :=
  ["client-logo.png"; "client-logo-white.png"; "client-icon.png"].

(** The sample tools with the directories listed in the opposite order. *)
Definition reversed_listdir (d : gmap string image) : list string :=
  rev (sample_listdir d).

Definition reversed_tools (page : image) : Tools :=
  mkTools (one_page page) sample_sips reversed_listdir.

(** The sample tools with rasterizers that all end in [o]. *)
Definition raster_tools (o : raster_outcome) : Tools :=
  mkTools (fun _ => o) sample_sips sample_listdir.


(** ** [LogoReplacer] ([src/replace_logos.py]) *)

Module LogoReplacer.
Import Replacer.

Definition logo_replacements : list (string * string) :=
  [("thali-logo.svg", "client-logo.png");
   ("thali-logo-white.svg", "client-logo-white.png")].

Definition apply_replacements (content : string) : string :=
  foldl (fun acc on => Str.replace on.1 on.2 acc) content logo_replacements.

Definition replace_logos_in_file (file_path : string) (st : state) : bool * state :=
  let st1 := note (Exists file_path) st in
  match files st !! file_path with
  | None => (false, st1)
  | Some f =>
      let st2 := note (Read file_path) st1 in
      match f with
      | Binary _ => (false, st2)     (* UnicodeDecodeError, caught *)
      | Text original_content =>
          let content := apply_replacements original_content in
          if negb (String.eqb content original_content)
          then (true, mkState (<[file_path := Text content]> (files st2))
                              (accesses st2 ++ [Written file_path]))
          else (false, st2)
      end
  end.

Definition logo_css : string :=
  String.concat newline
    [EmptyString; "/* Client Logo Styles */";
     ".nav-logo img,"; ".logo-footer img {";
     "    max-height: 60px;"; "    width: auto;"; "    object-fit: contain;"; "}";
     EmptyString; "@media (max-width: 768px) {";
     "    .nav-logo img,"; "    .logo-footer img {";
     "        max-height: 50px;"; "    }"; "}"; EmptyString].

(** The styles are appended, and the file written, only when the marker is
    not in the file yet. *)
Definition update_css_styles (st : state) : state :=
  let st1 := note (Exists css_file) st in
  match files st !! css_file with
  | None => st1
  | Some f =>
      let st2 := note (Read css_file) st1 in
      match f with
      | Binary _ => st2              (* UnicodeDecodeError, caught *)
      | Text content =>
          if negb (Str.contains "Client Logo Styles" content)
          then mkState (<[css_file := Text (content +:+ logo_css)]> (files st2))
                       (accesses st2 ++ [Written css_file])
          else st2
      end
  end.

Fixpoint replace_in_files (paths : list string) (updated_files : nat) (st : state)
  : nat * state :=
  match paths with
  | [] => (updated_files, st)
  | html_file :: rest =>
      match replace_logos_in_file html_file st with
      | (true, st') => replace_in_files rest (updated_files + 1) st'
      | (false, st') => replace_in_files rest updated_files st'
      end
  end.

Definition replace_all_logos (st : state) : bool * state :=
  let '(updated_files, st1) := replace_in_files html_files 0 st in
  let st2 := update_css_styles st1 in
  ((0 <? updated_files)%nat, st2).

End LogoReplacer.

(** ** What a text mentions, what a run wrote *)

(** [ch in s] for one character *)
Fixpoint has_char (ch : ascii) (s : string) : bool :=
  match s with
  | EmptyString => false
  | String c s' => Ascii.eqb ch c || has_char ch s'
  end.

(** The text names one of the logos [HardFeelingsLogoReplacer] replaces. *)
Definition mentions_old_logo (content : string) : bool :=
  existsb (fun on : string * string => Str.contains on.1 content) Replacer.logo_replacements.

(** The number of files written, by the record of accesses. *)
Definition writes (l : list Replacer.access) : nat :=
  length (List.filter (fun a => match a with Replacer.Written _ => true | _ => false end) l).

(** The stylesheet after one call of
    [HardFeelingsLogoReplacer.update_css_styles], with or without the old
    marker. *)
Definition css_after (content : string) : string :=
  if Str.contains "Client Logo Styles" content
  then Str.replace "Client Logo Styles" "Hard Feelings Tacos Logo Styles"
         (Str.replace "/* Client Logo Styles */"
                      "/* Hard Feelings Tacos Logo Styles */" content)
  else content +:+ Replacer.logo_css.

(** The pattern [generate_web_assets] publishes a role by. *)
Definition role_pattern (r : role) : string :=
  match r with
  | main_logo => "*main_logo*large.png"
  | icon => "*icon*large.png"
  end.

(** * Checks of the embedding on concrete inputs *)

(** Membership in an explicit list. *)
Ltac in_list :=
  solve [repeat first [apply list_elem_of_here | apply list_elem_of_further]].


Example wild_large : Str.wild "*_large.png" "p.png_logo_0_icon_large.png" = true.
Proof. reflexivity. Qed.
Example wild_large_no : Str.wild "*_large.png" "p.png_logo_0_icon_small.png" = false.
Proof. reflexivity. Qed.
Example wild_main : Str.wild "*main_logo*large.png" "p_logo_0_main_logo_white_large.png" = true.
Proof. reflexivity. Qed.
Example stem_of_page : Str.stem "a.pdf.png" = "a.pdf".
Proof. reflexivity. Qed.
Example stem_hidden : Str.stem ".png" = ".png".
Proof. reflexivity. Qed.
Example replace_all :
  Str.replace "_large" EmptyString "a_large.png_logo_0_icon_large" = "a.png_logo_0_icon".
Proof. reflexivity. Qed.
Example replace_new :
  Str.replace "client-logo.png" "hard-feelings-logo.png" "<img src=client-logo.png>"
  = "<img src=hard-feelings-logo.png>".
Proof. reflexivity. Qed.

Example str_nat_0 : str_nat 0 = "0". Proof. reflexivity. Qed.
Example str_nat_12 : str_nat 12 = "12". Proof. reflexivity. Qed.

Example run_once_final :
  let r := run_extraction (sample_tools sample_page) "a.pdf" (empty_fs {["a.pdf"]}) in
  r.1 = Ret true /\
  size (final r.2) = 8%nat /\
  size (images r.2) = 3%nat.
Proof. vm_compute. auto. Qed.

(** * Colour inversion *)

Lemma invert_channel_involutive v : invert_channel (invert_channel v) = v.
Proof. unfold invert_channel. lia. Qed.

Lemma invert_channel_ok v : channel_ok v -> channel_ok (invert_channel v).
Proof. unfold channel_ok, invert_channel. lia. Qed.

Lemma invert_pixel_involutive p : invert_pixel (invert_pixel p) = p.
Proof.
  destruct p as [r g b a]. unfold invert_pixel. simpl.
  by rewrite !invert_channel_involutive.
Qed.

Lemma invert_pixel_ok p : pixel_ok p -> pixel_ok (invert_pixel p).
Proof.
  destruct p as [r g b a]. unfold pixel_ok. simpl.
  intros (Hr & Hg & Hb & Ha). auto using invert_channel_ok.
Qed.

Lemma invert_image_dims i : dims (invert_image i) = dims i.
Proof. reflexivity. Qed.

(** C9: the channel inversion of the spec is an involution: inverting an
    inverted image gives back every pixel of the original, since
    [255 - (255 - v) = v] for every channel value [v]; the alpha channel is
    not touched. *)
Theorem color_inversion_involution :
  (forall v, invert_channel (invert_channel v) = v /\ 255 - (255 - v) = v) /\
  (forall p, alpha (invert_pixel p) = alpha p) /\
  (forall i, invert_image (invert_image i) = i).
Proof.
  split; [|split].
  - intros v. split; [apply invert_channel_involutive | lia].
  - by intros [].
  - intros [w h px]. unfold invert_image. simpl. f_equal.
    induction px as [|p px IH]; [done|].
    simpl. by rewrite invert_pixel_involutive, IH.
Qed.

(** * The file system operations leave the rest of the state alone *)

Lemma mkdirs_files ds fs :
  pages (mkdirs ds fs) = pages fs /\ processed (mkdirs ds fs) = processed fs /\
  final (mkdirs ds fs) = final fs /\ images (mkdirs ds fs) = images fs /\
  docs (mkdirs ds fs) = docs fs /\ trace (mkdirs ds fs) = trace fs.
Proof. by repeat split. Qed.

Lemma init_files out fs :
  pages (__init__ out fs) = pages fs /\ processed (__init__ out fs) = processed fs /\
  final (__init__ out fs) = final fs /\ images (__init__ out fs) = images fs /\
  docs (__init__ out fs) = docs fs /\ trace (__init__ out fs) = trace fs.
Proof. by repeat split. Qed.

Lemma init_made out fs d :
  d ∈ [(out ++ ["pages"])%list; (out ++ ["processed"])%list; (out ++ ["final"])%list] ->
  d ∈ made (__init__ out fs).
Proof.
  intros Hd. unfold __init__. simpl.
  assert (Hself : forall p : list string, p <> [] -> p ∈ parents_and_self p).
  { intros p Hp. unfold parents_and_self. apply list_elem_of_In, in_map_iff.
    exists (length p). split; [apply firstn_all|].
    apply in_seq. destruct p; [done|]. simpl. lia. }
  assert (Hne : forall s : string, (out ++ [s])%list <> []) by (intros s; by destruct out).
  set_unfold in Hd. set_unfold.
  destruct Hd as [->|[->|[->|[]]]]; eauto 10 using Hself.
Qed.

(** * Missing source document *)



(** * Rasterization strategies *)

Lemma try_methods_hit m rest fs fs' :
  m fs = (Ret true, fs') -> try_methods (m :: rest) fs = (Ret true, fs').
Proof. intros H. simpl. by rewrite H. Qed.

Lemma try_methods_miss m rest fs fs' r :
  m fs = (r, fs') -> r <> Ret true -> try_methods (m :: rest) fs = try_methods rest fs'.
Proof. intros H Hr. simpl. rewrite H. by destruct r as [[]|]. Qed.

(** Whatever the strategies after the first success are, they are not
    consulted: the result and the state are those of the first success. *)
Lemma try_methods_first_success pre m post fs fs1 fs2 :
  all_fail pre fs fs1 -> m fs1 = (Ret true, fs2) ->
  try_methods (pre ++ m :: post) fs = (Ret true, fs2).
Proof.
  induction 1 as [fs|m0 ms fs fsa fsb r Hm0 Hr _ IH]; intros Hm.
  - by apply try_methods_hit.
  - rewrite <- app_comm_cons. erewrite try_methods_miss by eauto. by apply IH.
Qed.

Lemma try_methods_all_fail ms fs fs' :
  all_fail ms fs fs' -> try_methods ms fs = (Ret false, fs').
Proof.
  induction 1 as [fs|m0 ms fs fsa fsb r Hm0 Hr _ IH]; [done|].
  by erewrite try_methods_miss by eauto.
Qed.

Lemma try_methods_spec ms fs :
  (exists pre m post fs1 fs2, ms = (pre ++ m :: post)%list /\ all_fail pre fs fs1 /\
     m fs1 = (Ret true, fs2) /\ try_methods ms fs = (Ret true, fs2)) \/
  (exists fs', all_fail ms fs fs' /\ try_methods ms fs = (Ret false, fs')).
Proof.
  revert fs. induction ms as [|m ms IH]; intros fs.
  - right. exists fs. split; [constructor|done].
  - destruct (m fs) as [r fs1] eqn:Hm.
    assert (r = Ret true \/ r <> Ret true) as [->|Hr]
      by (destruct r as [[]|]; auto).
    + left. exists [], m, ms, fs, fs1. repeat split; [constructor|done|by apply try_methods_hit].
    + destruct (IH fs1) as [(pre & m' & post & fsa & fsb & -> & Hpre & Hm' & Htry)|(fs' & Hall & Htry)].
      * left. exists (m :: pre), m', post, fsa, fsb.
        repeat split; [by econstructor|done|].
        by erewrite try_methods_miss by eauto.
      * right. exists fs'. split; [by econstructor|].
        by erewrite try_methods_miss by eauto.
Qed.

Lemma write_all_trace f files fs : trace (write_all f files fs) = trace fs.
Proof.
  revert fs. induction files as [|[n i] files IH]; intros fs; [done|].
  unfold write_all in *. simpl. rewrite IH. by destruct f.
Qed.

Lemma run_rasterizer_spec T c fs :
  run_rasterizer T c fs =
    (match rasterize T c with
     | RasterExited code _ => Ret (code =? 0)
     | RasterNotStarted => Raise OSError
     end,
     write_all PagesDir (written_by (rasterize T c)) (log c fs)).
Proof. unfold run_rasterizer. by destruct (rasterize T c). Qed.

(** C4: the strategies are tried in order and the first success wins.
    [extract_pdf_pages] never raises and returns [True] exactly when
    [qlmanage] or the [sips] conversion exits with status zero.  When
    [qlmanage] succeeds it is the only command run and only its files are
    written, whatever the later strategies would have done.  When it exits
    non-zero or cannot be started (the exception is caught), the [sips]
    conversion is run next. *)
Theorem rasterize_first_success_wins (T : Tools) (pdf_path : string) (fs : FS) :
  let q := Qlmanage 3000 PagesDir pdf_path in
  let s := SipsFormat pdf_path (PagesDir, "page_%d.png") in
  let r := extract_pdf_pages T pdf_path fs in
  r.1 = Ret (exit_zero (rasterize T q) || exit_zero (rasterize T s)) /\
  (exit_zero (rasterize T q) = true ->
     r.2 = write_all PagesDir (written_by (rasterize T q)) (log q fs) /\
     trace r.2 = (trace fs ++ [q])%list) /\
  (exit_zero (rasterize T q) = false ->
     r.2 = write_all PagesDir (written_by (rasterize T s))
             (log s (write_all PagesDir (written_by (rasterize T q)) (log q fs))) /\
     trace r.2 = (trace fs ++ [q; s])%list).
Proof.
  intros q s r. subst r. unfold extract_pdf_pages, _extract_with_qlmanage, _extract_with_sips.
  fold q s.
  pose proof (run_rasterizer_spec T q fs) as Hq.
  set (fs1 := write_all PagesDir (written_by (rasterize T q)) (log q fs)) in *.
  pose proof (run_rasterizer_spec T s fs1) as Hs.
  set (fs2 := write_all PagesDir (written_by (rasterize T s)) (log s fs1)) in *.
  assert (Ht1 : trace fs1 = (trace fs ++ [q])%list)
    by (unfold fs1; by rewrite write_all_trace).
  assert (Ht2 : trace fs2 = (trace fs ++ [q; s])%list).
  { unfold fs2. rewrite write_all_trace. simpl. rewrite Ht1.
    by rewrite <- app_assoc. }
  assert (Hrun : try_methods
            [run_rasterizer T q; run_rasterizer T s; _extract_with_preview pdf_path] fs
          = (Ret (exit_zero (rasterize T q) || exit_zero (rasterize T s)),
             if exit_zero (rasterize T q) then fs1 else fs2)).
  { destruct (exit_zero (rasterize T q)) eqn:Eq.
    - apply try_methods_hit. rewrite Hq.
      destruct (rasterize T q); simpl in Eq; [by rewrite Eq|done].
    - erewrite try_methods_miss; [| exact Hq |].
      2:{ destruct (rasterize T q); simpl in Eq; [by rewrite Eq|done]. }
      destruct (exit_zero (rasterize T s)) eqn:Es.
      + apply try_methods_hit. rewrite Hs.
        destruct (rasterize T s); simpl in Es; [by rewrite Es|done].
      + erewrite try_methods_miss; [done| exact Hs |].
        destruct (rasterize T s); simpl in Es; [by rewrite Es|done]. }
  rewrite Hrun. simpl.
  split; [done|]. split; intros ->; by split.
Qed.

Lemma rasterize_first_success_wins_witness :
  let T := sample_tools sample_page in
  let q := Qlmanage 3000 PagesDir "a.pdf" in
  let r := extract_pdf_pages T "a.pdf" (empty_fs {["a.pdf"]}) in
  r.1 = Ret true /\ trace r.2 = [q] /\ pages r.2 = {["a.pdf.png" := sample_page]}.
Proof.
  intros T q r.
  destruct (rasterize_first_success_wins T "a.pdf" (empty_fs {["a.pdf"]}))
    as (Hres & Hfirst & _).
  destruct (Hfirst eq_refl) as [Hstate Htrace].
  split; [exact Hres|]. split; [exact Htrace|].
  subst r. rewrite Hstate. vm_compute. reflexivity.
Defined.

(** * Region Locator *)

Lemma detect_logo_regions_regs T fs page regs :
  (page, regs) ∈ detect_logo_regions T fs ->
  regs = placeholder_regions /\ page ∈ glob T "*.png" (pages fs).
Proof.
  unfold detect_logo_regions. intros H.
  apply list_elem_of_In, in_map_iff in H as (p & Heq & Hin).
  inversion Heq; subst. split; [done|]. by apply list_elem_of_In.
Qed.

Lemma sample_listdir_ok page : listing_ok (sample_tools page).
Proof.
  intros d. simpl. unfold sample_listdir. split.
  - apply NoDup_fst_map_to_list.
  - intros n. rewrite list_elem_of_fmap. split.
    + intros ([n' i] & -> & Hin). apply elem_of_map_to_list in Hin. by exists i.
    + intros [i Hi]. exists (n, i). split; [done|]. by apply elem_of_map_to_list.
Qed.

(** C6, as stated, fails: on a rasterized page of 200 x 200 pixels the
    locator reports the main-logo rectangle (100, 100, 300, 100), which
    does not lie within the page. *)
Lemma placeholder_region_outside_small_page :
  let page := Image 200 200 [] in
  let fs := mkFS ∅ ∅ {["p.png" := page]} ∅ ∅ ∅ [] in
  let r := Region.mk 100 100 300 100 main_logo in
  listing_ok (sample_tools page) /\
  pages fs !! "p.png" = Some page /\
  (exists regs, ("p.png", regs) ∈ detect_logo_regions (sample_tools page) fs /\ r ∈ regs) /\
  region_valid page r = false.
Proof.
  intros page fs r. split; [apply sample_listdir_ok|].
  split; [by vm_compute|]. split; [|by vm_compute].
  exists placeholder_regions. split.
  - assert (detect_logo_regions (sample_tools page) fs = [("p.png", placeholder_regions)])
      as -> by (by vm_compute).
    in_list.
  - unfold placeholder_regions, r. in_list.
Qed.

(** C6, amended: every region the locator reports has a positive width and
    a positive height; the regions are the two fixed placeholder
    rectangles, and they lie within a page exactly when the page is at
    least 400 pixels wide and 450 pixels high. *)
Theorem placeholder_regions_valid (T : Tools) (fs : FS) (page : string) (regs : list Region.t) :
  (page, regs) ∈ detect_logo_regions T fs ->
  (forall r, r ∈ regs -> 0 < Region.width r /\ 0 < Region.height r) /\
  (forall img, (forall r, r ∈ regs -> region_valid img r = true) <->
               400 <= img_width img /\ 450 <= img_height img).
Proof.
  intros [-> _]%detect_logo_regions_regs. split.
  - intros r Hr. unfold placeholder_regions in Hr. set_unfold in Hr.
    destruct Hr as [->|[->|[]]]; simpl; lia.
  - intros img. split.
    + intros Hall.
      assert (H1 : region_valid img (Region.mk 100 100 300 100 main_logo) = true)
        by (apply Hall; unfold placeholder_regions; apply list_elem_of_here).
      assert (H2 : region_valid img (Region.mk 200 300 150 150 icon) = true)
        by (apply Hall; unfold placeholder_regions;
            apply list_elem_of_further, list_elem_of_here).
      unfold region_valid, region_in_page in H1, H2. simpl in H1, H2.
      rewrite !andb_true_iff, !Z.leb_le in H1, H2. lia.
    + intros [Hw Hh] r Hr. unfold placeholder_regions in Hr. set_unfold in Hr.
      unfold region_valid, region_in_page.
      destruct Hr as [->|[->|[]]]; simpl;
        repeat (apply andb_true_intro; split); try done; apply Z.leb_le; lia.
Qed.

Lemma placeholder_regions_valid_witness :
  let page := Image 3000 2000 [] in
  let fs := mkFS ∅ ∅ {["p.png" := page]} ∅ ∅ ∅ [] in
  (forall r, r ∈ placeholder_regions -> 0 < Region.width r /\ 0 < Region.height r) /\
  (forall img, (forall r, r ∈ placeholder_regions -> region_valid img r = true) <->
               400 <= img_width img /\ 450 <= img_height img).
Proof.
  intros page fs.
  apply (placeholder_regions_valid (sample_tools page) fs "p.png").
  assert (detect_logo_regions (sample_tools page) fs = [("p.png", placeholder_regions)])
    as -> by (by vm_compute).
  in_list.
Defined.

(** * Logo replacement: a missing source logo *)

Module ReplacerFacts.
Import Replacer.






End ReplacerFacts.

(** * The image loops *)

Section Loops.

Variable T : Tools.

Lemma try_run_spec c src out fs :
  try_run T c src out fs =
    match sips T c (read src fs) with
    | Wrote img => (Ret tt, write out img (log c fs))
    | Failed => (Ret tt, log c fs)
    | NotStarted => (Raise OSError, log c fs)
    end.
Proof.
  unfold try_run, except_called_process_error, subprocess_run_check.
  by destruct (sips T c (read src fs)).
Qed.

Lemma for_each_cons {X} (x : X) xs body fs :
  for_each (x :: xs) body fs =
    match body x fs with
    | (Ret _, fs') => for_each xs body fs'
    | (Raise e, fs') => (Raise e, fs')
    end.
Proof. reflexivity. Qed.

Lemma for_each_app {X} (xs ys : list X) body fs :
  for_each (xs ++ ys) body fs =
    match for_each xs body fs with
    | (Ret _, fs') => for_each ys body fs'
    | (Raise e, fs') => (Raise e, fs')
    end.
Proof.
  revert fs. induction xs as [|x xs IH]; intros fs; [done|].
  rewrite <- app_comm_cons, !for_each_cons.
  destruct (body x fs) as [[[]|e] fs']; [apply IH|done].
Qed.

(** A loop inside a loop runs its body over the work list, in order. *)
Lemma for_each_nested {X Y W} (xs : list X) (f : X -> list Y) (g : X -> Y -> M unit)
    (h : X -> Y -> W) (body : W -> M unit) fs :
  (forall x y fs0, body (h x y) fs0 = g x y fs0) ->
  for_each xs (fun x => for_each (f x) (g x)) fs =
  for_each (flat_map (fun x => List.map (h x) (f x)) xs) body fs.
Proof.
  intros Hbody. revert fs. induction xs as [|x xs IH]; intros fs; [done|].
  simpl flat_map. rewrite for_each_app, for_each_cons.
  assert (Hin : forall ys fs0, for_each (List.map (h x) ys) body fs0
                               = for_each ys (g x) fs0).
  { induction ys as [|y ys IHy]; intros fs0; [done|].
    simpl List.map. rewrite !for_each_cons, Hbody.
    destruct (g x y fs0) as [[[]|e] fs']; [apply IHy|done]. }
  rewrite Hin.
  destruct (for_each (f x) (g x) fs) as [[[]|e] fs']; [apply IH|done].
Qed.

Lemma for_each_ext {X} (xs : list X) body body' fs :
  (forall x fs0, body x fs0 = body' x fs0) ->
  for_each xs body fs = for_each xs body' fs.
Proof.
  intros Hext. revert fs. induction xs as [|x xs IH]; intros fs; [done|].
  rewrite !for_each_cons, Hext.
  destruct (body' x fs) as [[[]|e] fs']; [apply IH|done].
Qed.

(** What holds before a loop and is kept by every step holds after it. *)
Lemma for_each_invariant {X} (P : FS -> Prop) (xs : list X) body fs r fs' :
  (forall x fs0 r0 fs1, x ∈ xs -> P fs0 -> body x fs0 = (r0, fs1) -> P fs1) ->
  P fs -> for_each xs body fs = (r, fs') -> P fs'.
Proof.
  revert fs. induction xs as [|x xs IH]; intros fs Hstep HP Hrun.
  - by inversion Hrun; subst.
  - rewrite for_each_cons in Hrun.
    destruct (body x fs) as [[[]|e] fs1] eqn:Hbody.
    + apply (IH fs1); [|by eapply Hstep; [left|..]|done].
      intros y fs0 r0 fs2 Hy. apply Hstep. by right.
    + inversion Hrun; subst. eapply Hstep; [left|done..].
Qed.

(** ** Steps *)

Lemma dir_of_log f c fs : dir_of f (log c fs) = dir_of f fs.
Proof. by destruct f. Qed.

Lemma dir_of_write f out img fs :
  dir_of f (write out img fs) =
    if decide (out.1 = f) then <[out.2 := img]> (dir_of f fs) else dir_of f fs.
Proof. destruct out as [[] n], f; reflexivity. Qed.

Lemma dir_of_write_all_other f g files fs :
  g <> f -> dir_of f (write_all g files fs) = dir_of f fs.
Proof.
  intros Hne. revert fs. unfold write_all.
  induction files as [|[n i] files IH]; intros fs; [done|].
  simpl. rewrite IH, dir_of_write. simpl. by rewrite decide_False.
Qed.


Lemma docs_write out img fs : docs (write out img fs) = docs fs.
Proof. by destruct out as [[] n]. Qed.




Lemma try_run_dir c src out fs r fs' f :
  try_run T c src out fs = (r, fs') ->
  dir_of f fs' = dir_of f fs \/
  exists img, sips T c (read src fs) = Wrote img /\ out.1 = f /\
              dir_of f fs' = <[out.2 := img]> (dir_of f fs).
Proof.
  rewrite try_run_spec.
  destruct (sips T c (read src fs)) as [img| |] eqn:E; intros [= <- <-];
    rewrite ?dir_of_write, ?dir_of_log; auto.
  case_decide; [right; by exists img|by left].
Qed.

Lemma try_run_other_dir c src out fs r fs' f :
  out.1 <> f -> try_run T c src out fs = (r, fs') -> dir_of f fs' = dir_of f fs.
Proof.
  intros Hne Hrun. destruct (try_run_dir _ _ _ _ _ _ f Hrun) as [H|(img & _ & Hf & _)]; done.
Qed.

Lemma try_run_keeps c src out fs r fs' f n :
  try_run T c src out fs = (r, fs') ->
  is_Some (dir_of f fs !! n) -> is_Some (dir_of f fs' !! n).
Proof.
  intros Hrun Hn. destruct (try_run_dir _ _ _ _ _ _ f Hrun) as [->|(img & _ & _ & ->)]; [done|].
  rewrite lookup_insert. case_decide; [by eexists|done].
Qed.

(** ** Loops of steps *)

Section Steps.

Context {X : Type} (cmd : X -> command) (src out : X -> path).

Let body (x : X) : M unit := try_run T (cmd x) (src x) (out x).


Lemma steps_keep items fs r fs' f n :
  for_each items body fs = (r, fs') ->
  is_Some (dir_of f fs !! n) -> is_Some (dir_of f fs' !! n).
Proof.
  intros Hrun Hn.
  apply (for_each_invariant (fun s => is_Some (dir_of f s !! n)) items body fs r fs');
    [|done..].
  intros x fs0 r0 fs1 _ H0 Hstep. by eapply try_run_keeps.
Qed.

Lemma steps_other_dir items fs r fs' f :
  (forall x, x ∈ items -> (out x).1 <> f) ->
  for_each items body fs = (r, fs') -> dir_of f fs' = dir_of f fs.
Proof.
  intros Hout Hrun.
  apply (for_each_invariant (fun s => dir_of f s = dir_of f fs) items body fs r fs');
    [|done..].
  intros x fs0 r0 fs1 Hx H0 Hstep. rewrite <- H0.
  eapply try_run_other_dir; [|done]. by apply Hout.
Qed.

(** When every operation succeeds, the loop adds exactly its outputs. *)
Lemma steps_dom items fs r fs' f :
  sips_succeeds T ->
  (forall x, x ∈ items -> (out x).1 = f /\ is_Some (read (src x) fs)) ->
  for_each items body fs = (r, fs') ->
  r = Ret tt /\
  dom (dir_of f fs') = dom (dir_of f fs) ∪ list_to_set (List.map (fun x => (out x).2) items).
Proof.
  intros Hok. revert fs. induction items as [|x items IH]; intros fs Hitems Hrun.
  - inversion Hrun; subst. split; [done|]. simpl. set_solver.
  - rewrite for_each_cons in Hrun. unfold body at 1 in Hrun.
    destruct (Hitems x) as [Hf [img Himg]]; [left|].
    destruct (Hok (cmd x) img) as [o Ho].
    rewrite try_run_spec, Himg, Ho in Hrun.
    apply IH in Hrun as [-> Hdom].
    + split; [done|]. rewrite Hdom, dir_of_write, dir_of_log, decide_True by done.
      rewrite dom_insert_L. simpl. set_solver.
    + intros y Hy. destruct (Hitems y) as [Hfy Hy']; [by right|]. split; [done|].
      unfold read in *. rewrite dir_of_write, dir_of_log.
      case_decide; [|done]. rewrite lookup_insert. case_decide; [by eexists|done].
Qed.


End Steps.

End Loops.

(** * The stages as loops of steps *)

Section Stages.

Variable T : Tools.

Lemma crop_logos_steps regs fs :
  crop_logos T regs fs = for_each (crop_items regs) (crop_step T) fs.
Proof.
  unfold crop_logos, crop_items.
  by apply (for_each_nested regs (fun pd => enumerate pd.2) (fun pd => crop_region T pd.1)
              (fun pd => pair pd.1)).
Qed.

Lemma optimize_logos_steps fs :
  optimize_logos T fs =
  for_each (resize_items (glob T "*.png" (processed fs))) (resize_step T) fs.
Proof.
  unfold optimize_logos, resize_items.
  by apply (for_each_nested _ (fun _ => sizes) (resize_logo T) pair).
Qed.







(** The stages write to one directory each. *)
Lemma crop_logos_other_dir regs fs r fs' f :
  f <> ProcessedDir -> crop_logos T regs fs = (r, fs') -> dir_of f fs' = dir_of f fs.
Proof.
  intros Hf. rewrite crop_logos_steps.
  apply (steps_other_dir T (fun it => crop_cmd it.1 it.2)). intros x _. simpl. congruence.
Qed.

Lemma optimize_logos_other_dir fs r fs' f :
  f <> FinalDir -> optimize_logos T fs = (r, fs') -> dir_of f fs' = dir_of f fs.
Proof.
  intros Hf. rewrite optimize_logos_steps.
  apply (steps_other_dir T (fun it => resize_cmd it.1 it.2)). intros x _. simpl. congruence.
Qed.

Lemma create_white_versions_other_dir fs r fs' f :
  f <> FinalDir -> create_white_versions T fs = (r, fs') -> dir_of f fs' = dir_of f fs.
Proof.
  intros Hf. unfold create_white_versions.
  apply (steps_other_dir T invert_cmd). intros x _. simpl. congruence.
Qed.

(** Publishing writes to [images/] only, and raises only when a listed
    file cannot be read. *)
Lemma glob_elem pat d n :
  n ∈ glob T pat d <-> n ∈ listdir T d /\ Str.wild pat n = true.
Proof.
  unfold glob. rewrite !list_elem_of_In, filter_In. by rewrite <- !list_elem_of_In.
Qed.

Lemma publish_spec pat dst fs :
  listing_ok T ->
  exists fs', publish T pat dst fs = (Ret tt, fs') /\
    final fs' = final fs /\ processed fs' = processed fs /\ pages fs' = pages fs /\
    trace fs' = trace fs /\
    match glob T pat (final fs) with
    | [] => images fs' = images fs
    | first :: _ => exists img, final fs !! first = Some img /\
                                images fs' = <[dst := img]> (images fs)
    end.
Proof.
  intros Hls. unfold publish.
  destruct (glob T pat (final fs)) as [|first rest] eqn:Hglob.
  - by exists fs.
  - assert (Hin : first ∈ glob T pat (final fs)) by (rewrite Hglob; left).
    apply glob_elem in Hin as [Hin _]. apply Hls in Hin as [img Himg].
    unfold copy2, read. simpl. rewrite Himg.
    eexists. split; [reflexivity|]. repeat split. by exists img.
Qed.

End Stages.

(** * Failures of single operations *)


(** The stages after the rasterization, as [run_extraction] chains them. *)
Lemma run_extraction_stages T pdf_path fs fs1 :
  pdf_path ∈ docs fs ->
  extract_pdf_pages T pdf_path fs = (Ret true, fs1) ->
  run_extraction T pdf_path fs =
    match crop_logos T (detect_logo_regions T fs1) fs1 with
    | (Raise e, fs2) => (Raise e, fs2)
    | (Ret _, fs2) =>
        match optimize_logos T fs2 with
        | (Raise e, fs3) => (Raise e, fs3)
        | (Ret _, fs3) =>
            match create_white_versions T fs3 with
            | (Raise e, fs4) => (Raise e, fs4)
            | (Ret _, fs4) =>
                match generate_web_assets T fs4 with
                | (Raise e, fs5) => (Raise e, fs5)
                | (Ret _, fs5) => (Ret true, fs5)
                end
            end
        end
    end.
Proof.
  intros Hdoc Hext. unfold run_extraction.
  rewrite bool_decide_eq_true_2 by done. simpl.
  unfold bind at 1. rewrite Hext. simpl. unfold bind, ret.
  destruct (crop_logos T (detect_logo_regions T fs1) fs1) as [[[]|e] fs2]; [|done].
  destruct (optimize_logos T fs2) as [[[]|e] fs3]; [|done].
  destruct (create_white_versions T fs3) as [[[]|e] fs4]; [|done].
  by destruct (generate_web_assets T fs4) as [[[]|e] fs5].
Qed.




Example one_crop_fails :
  let r := run_extraction (failing_tools crops_main_logo sample_page) "a.pdf"
             (empty_fs {["a.pdf"]}) in
  r.1 = Ret true /\ length (trace r.2) = 7%nat /\
  sample_listdir (processed r.2) = ["a.pdf.png_logo_1_icon.png"] /\
  size (final r.2) = 4%nat.
Proof. vm_compute. auto. Qed.

(** * Where the variants come from *)

Lemma elem_of_resize_items files it :
  it ∈ resize_items files <-> it.1 ∈ files /\ it.2 ∈ sizes.
Proof.
  unfold resize_items. rewrite !list_elem_of_In, in_flat_map. split.
  - intros (f & Hf & Hit). by apply in_map_iff in Hit as (ss & <- & Hss).
  - intros [Hf Hss]. exists it.1. split; [done|].
    apply in_map_iff. exists it.2. split; [by destruct it|done].
Qed.




(** * Facts about names *)

Module StrFacts.
Import Str.

Lemma app_cons c s t : String c s +:+ t = String c (s +:+ t).
Proof. reflexivity. Qed.

Lemma app_nil_l t : EmptyString +:+ t = t.
Proof. reflexivity. Qed.


Lemma app_assoc a b c : (a +:+ b) +:+ c = a +:+ b +:+ c.
Proof. induction a as [|x a IH]; [done|]. by rewrite !app_cons, IH. Qed.

Lemma length_app a b : String.length (a +:+ b) = (String.length a + String.length b)%nat.
Proof. induction a as [|x a IH]; [done|]. rewrite app_cons. simpl. by rewrite IH. Qed.

(** ** [glob] patterns *)

Lemma wild_star_nil pat : wild (String "*" pat) EmptyString = wild pat EmptyString.
Proof. simpl. by rewrite orb_false_r. Qed.

Lemma wild_star_cons pat c s :
  wild (String "*" pat) (String c s) = wild pat (String c s) || wild (String "*" pat) s.
Proof. reflexivity. Qed.

Lemma wild_char_cons a pat c s :
  Ascii.eqb a "*" = false ->
  wild (String a pat) (String c s) = Ascii.eqb a c && wild pat s.
Proof. intros H. simpl. by rewrite H. Qed.

(** A leading star takes any prefix. *)
Lemma wild_star_absorb pat a t :
  wild (String "*" pat) t = true -> wild (String "*" pat) (a +:+ t) = true.
Proof.
  intros H. induction a as [|c a IH]; [done|].
  rewrite app_cons, wild_star_cons, IH. apply orb_true_r.
Qed.

Lemma wild_literal lit s : star_free lit = true -> wild lit s = true -> s = lit.
Proof.
  revert s. induction lit as [|a lit IH]; intros s Hfree Hw.
  - by destruct s.
  - simpl in Hfree. apply andb_prop in Hfree as [Ha Hfree].
    apply negb_true_iff in Ha.
    destruct s as [|c s]; [simpl in Hw; by rewrite Ha in Hw|].
    rewrite wild_char_cons in Hw by done.
    apply andb_prop in Hw as [Hac Hw]. apply Ascii.eqb_eq in Hac as ->.
    f_equal. by apply IH.
Qed.

(** A match of [*lit] against [p +:+ t] lies within [t] when [t] is long
    enough. *)
Lemma wild_suffix_inv lit p t :
  star_free lit = true ->
  (String.length lit <= String.length t)%nat ->
  wild (String "*" lit) (p +:+ t) = true -> wild (String "*" lit) t = true.
Proof.
  intros Hfree Hlen. induction p as [|c p IH]; [done|].
  rewrite app_cons, wild_star_cons. intros [Hw|Hw]%orb_prop; [|by apply IH].
  apply wild_literal in Hw; [|done].
  apply (f_equal String.length) in Hw. simpl in Hw. rewrite length_app in Hw. lia.
Qed.

(** ** [stem] *)

Lemma rfind_dot_png x : rfind_dot (x +:+ ".png") = Some (String.length x).
Proof. induction x as [|c x IH]; [done|]. rewrite app_cons. simpl. by rewrite IH. Qed.

Lemma substring_app x t : substring 0 (String.length x) (x +:+ t) = x.
Proof.
  induction x as [|c x IH]; [by destruct t|]. rewrite app_cons. simpl. by rewrite IH.
Qed.

Lemma stem_png x : x <> EmptyString -> stem (x +:+ ".png") = x.
Proof.
  intros Hx. unfold stem. rewrite rfind_dot_png, length_app. simpl.
  destruct x as [|c x]; [done|]. simpl String.length.
  replace (0 <? S (String.length x))%nat with true by (symmetry; apply Nat.ltb_lt; lia).
  replace (S (String.length x) <? S (String.length x) + 4 - 1)%nat with true
    by (symmetry; apply Nat.ltb_lt; lia).
  simpl andb. cbv iota. apply (substring_app (String c x)).
Qed.

(** ** [startswith] and [replace] *)

Lemma starts_with_app old s t :
  starts_with old s = true -> starts_with old (s +:+ t) = true.
Proof.
  revert s. induction old as [|a old IH]; intros s H; [done|].
  destruct s as [|c s]; [done|]. rewrite app_cons. simpl in *.
  apply andb_prop in H as [-> H]. by rewrite IH.
Qed.

Lemma starts_with_length old s :
  starts_with old s = true -> (String.length old <= String.length s)%nat.
Proof.
  revert s. induction old as [|a old IH]; intros s H; simpl; [lia|].
  destruct s as [|c s]; [done|]. simpl in *.
  apply andb_prop in H as [_ H]. apply IH in H. lia.
Qed.

Lemma starts_with_split old s t :
  starts_with old (s +:+ t) = true ->
  starts_with old s = true \/
  (old <> EmptyString /\ starts_with old t = true /\ s = EmptyString) \/
  straddles old t = true.
Proof.
  revert old. induction s as [|c s IH]; intros old H.
  - destruct old as [|a old]; [by left|]. right. left. by rewrite app_nil_l in H.
  - destruct old as [|a old]; [by left|].
    rewrite app_cons in H. simpl in H. apply andb_prop in H as [Hac H].
    destruct (IH old H) as [Hs|[(Hne & Ht & ->)|Hst]].
    + left. simpl. by rewrite Hac, Hs.
    + right. right. simpl. rewrite Ht.
      destruct old; [done|]. reflexivity.
    + right. right. simpl. rewrite Hst. apply orb_true_r.
Qed.

(** An occurrence of [old] that begins before [t] ends before [t]. *)
Lemma no_straddle old t s :
  straddles old t = false -> s <> EmptyString ->
  starts_with old (s +:+ t) = true -> starts_with old s = true.
Proof.
  intros Hst Hs H. destruct (starts_with_split old s t H) as [?|[(_ & _ & ?)|?]];
    [done|done|congruence].
Qed.

Lemma replace_from_app old new t :
  straddles old t = false ->
  forall p k, (k <= String.length p)%nat ->
    replace_from old new k (p +:+ t) =
    replace_from old new k p +:+ replace_from old new 0 t.
Proof.
  intros Hst. induction p as [|c p IH]; intros k Hk.
  - simpl in Hk. by replace k with 0%nat by lia.
  - rewrite app_cons. destruct k as [|k].
    + cbn [replace_from].
      destruct (starts_with old (String c p)) eqn:E.
      * pose proof (starts_with_app old (String c p) t E) as E'.
        rewrite app_cons in E'. rewrite E'.
        apply starts_with_length in E. simpl in E.
        rewrite IH by lia. by rewrite app_assoc.
      * destruct (starts_with old (String c (p +:+ t))) eqn:E'.
        { rewrite <- app_cons in E'. apply no_straddle in E'; [congruence|done|done]. }
        rewrite IH by lia. by rewrite app_cons.
    + cbn [replace_from]. apply IH. simpl in Hk. lia.
Qed.

Lemma replace_app old new p t :
  straddles old t = false ->
  replace old new (p +:+ t) = replace old new p +:+ replace old new t.
Proof. intros Hst. unfold replace. apply replace_from_app; [done|lia]. Qed.

Lemma app_not_nil p t : t <> EmptyString -> p +:+ t <> EmptyString.
Proof. intros Ht. destruct p; [done|]. by rewrite app_cons. Qed.

End StrFacts.

(** * The names of one page with the two placeholder regions *)

Section ScenarioNames.
Import Str StrFacts.

Variable page : string.




Lemma wild_png_crop t :
  wild "*.png" t = true -> wild "*.png" (page +:+ t) = true.
Proof. apply wild_star_absorb. Qed.

Lemma stem_page t : t <> EmptyString -> stem (page +:+ t +:+ ".png") = page +:+ t.
Proof.
  intros Ht. rewrite <- app_assoc. apply stem_png. by apply app_not_nil.
Qed.


Lemma white_name_page t :
  t <> EmptyString -> straddles "_large" t = false ->
  white_name (page +:+ t +:+ ".png")
  = replace "_large" EmptyString page +:+ replace "_large" EmptyString t +:+ "_white_large.png".
Proof.
  intros Ht Hst. unfold white_name.
  by rewrite stem_page, replace_app, app_assoc.
Qed.

Lemma white_name_main :
  white_name (page +:+ "_logo_0_main_logo_large.png")
  = replace "_large" EmptyString page +:+ "_logo_0_main_logo_white_large.png".
Proof. by apply (white_name_page "_logo_0_main_logo_large"). Qed.



(** A name that ends in [lit] is not a name whose long enough end does not. *)
Lemma other_end_ne (lit a1 t1 a2 t2 : string) :
  star_free lit = true ->
  wild (String "*" lit) t1 = true ->
  (String.length lit <= String.length t2)%nat ->
  wild (String "*" lit) t2 = false ->
  a1 +:+ t1 <> a2 +:+ t2.
Proof.
  intros Hfree H1 Hlen H2 Heq.
  apply (wild_star_absorb lit a1) in H1. rewrite Heq in H1.
  apply wild_suffix_inv in H1; [congruence|done..].
Qed.


End ScenarioNames.

(** * One page, two regions, every operation succeeds *)

Lemma try_methods_invariant (P : FS -> Prop) ms fs r fs' :
  (forall m fs0 r0 fs1, m ∈ ms -> P fs0 -> m fs0 = (r0, fs1) -> P fs1) ->
  P fs -> try_methods ms fs = (r, fs') -> P fs'.
Proof.
  revert fs. induction ms as [|m ms IH]; intros fs Hstep HP Hrun.
  - by inversion Hrun; subst.
  - simpl in Hrun. destruct (m fs) as [r0 fs1] eqn:Hm.
    assert (P fs1) by (eapply Hstep; [left|done..]).
    assert (forall m' fs0 r1 fs2, m' ∈ ms -> P fs0 -> m' fs0 = (r1, fs2) -> P fs2)
      by (intros m' ????; apply Hstep; by right).
    destruct r0 as [[]|e]; [by inversion Hrun; subst|by eapply IH..].
Qed.

Lemma extract_pdf_pages_other_dir T pdf_path fs r fs' f :
  f <> PagesDir ->
  extract_pdf_pages T pdf_path fs = (r, fs') -> dir_of f fs' = dir_of f fs.
Proof.
  intros Hf Hrun. unfold extract_pdf_pages in Hrun.
  refine (try_methods_invariant (fun s => dir_of f s = dir_of f fs) _ fs r fs' _
            eq_refl Hrun).
  intros m fs0 r0 fs1 Hm H0 Hstep. simpl. rewrite <- H0.
  assert (Hrast : forall c, run_rasterizer T c fs0 = (r0, fs1) -> dir_of f fs1 = dir_of f fs0).
  { intros c. rewrite run_rasterizer_spec. intros [= _ <-].
    by rewrite dir_of_write_all_other, dir_of_log. }
  rewrite !elem_of_cons, elem_of_nil in Hm.
  destruct Hm as [->|[->|[->|[]]]]; [by eapply Hrast..|].
  by inversion Hstep.
Qed.

Lemma glob_dom T pat (d : gmap string image) n :
  listing_ok T -> n ∈ glob T pat d <-> n ∈ dom d /\ Str.wild pat n = true.
Proof.
  intros Hls. rewrite glob_elem, elem_of_dom. by destruct (Hls d) as [_ ->].
Qed.


Lemma elem_of_map_set {A} (g : A -> string) (l : list A) (x : string) :
  x ∈ (list_to_set (List.map g l) : gset string) <-> exists y, y ∈ l /\ x = g y.
Proof.
  rewrite elem_of_list_to_set, list_elem_of_In, in_map_iff. split.
  - intros (y & <- & Hy). exists y. by rewrite list_elem_of_In.
  - intros (y & Hy & ->). exists y. by rewrite <- list_elem_of_In.
Qed.

(** What [generate_web_assets] leaves in [images/]. *)
Lemma generate_web_assets_spec T fs :
  listing_ok T ->
  exists fs',
    generate_web_assets T fs = (Ret tt, fs') /\ final fs' = final fs /\
    (glob T "*main_logo*large.png" (final fs) <> [] ->
       is_Some (images fs' !! "client-logo.png")) /\
    (glob T "*white*large.png" (final fs) <> [] ->
       is_Some (images fs' !! "client-logo-white.png")) /\
    (glob T "*icon*large.png" (final fs) <> [] ->
       is_Some (images fs' !! "client-icon.png")) /\
    (is_Some (images fs' !! "client-logo-white.png") ->
       is_Some (images fs !! "client-logo-white.png") \/
       glob T "*white*large.png" (final fs) <> []).
Proof.
  intros Hls. unfold generate_web_assets, bind.
  destruct (publish_spec T "*main_logo*large.png" "client-logo.png" fs Hls)
    as (fs1 & -> & Hf1 & _ & _ & _ & Hi1).
  destruct (publish_spec T "*white*large.png" "client-logo-white.png" fs1 Hls)
    as (fs2 & -> & Hf2 & _ & _ & _ & Hi2).
  destruct (publish_spec T "*icon*large.png" "client-icon.png" fs2 Hls)
    as (fs3 & -> & Hf3 & _ & _ & _ & Hi3).
  rewrite Hf2, Hf1 in Hi3. rewrite Hf1 in Hi2.
  exists fs3. split; [done|]. split; [congruence|].
  destruct (glob T "*main_logo*large.png" (final fs)) as [|m ?];
    destruct (glob T "*white*large.png" (final fs)) as [|w ?];
    destruct (glob T "*icon*large.png" (final fs)) as [|i ?];
    repeat match goal with
           | H : exists img, _ /\ _ |- _ => destruct H as (? & _ & H)
           end;
    rewrite Hi3, ?Hi2, ?Hi1; repeat split; try done;
    rewrite ?lookup_insert_ne by done; rewrite ?lookup_insert_eq; eauto.
Qed.

Section Scenario.
Import Str StrFacts.

Variable T : Tools.
Variable page : string.
Hypothesis Hls : listing_ok T.
Hypothesis Hok : sips_succeeds T.









End Scenario.

(** * The sample tools *)




(** * The scenarios on the sample tools *)



(** * The name of the inverted variant *)

Section WhiteName.
Import Str StrFacts.

Lemma eqb_longer x suffix : x <> EmptyString -> String.eqb (x +:+ suffix) suffix = false.
Proof.
  intros Hx. apply String.eqb_neq. intros Heq.
  apply (f_equal String.length) in Heq. rewrite length_app in Heq.
  destruct x; [done|]. simpl in Heq. lia.
Qed.

Lemma strip_suffix_app x suffix : strip_suffix suffix (x +:+ suffix) = x.
Proof.
  induction x as [|c x IH].
  - rewrite app_nil_l. destruct suffix; simpl; [done|].
    by rewrite Ascii.eqb_refl, String.eqb_refl.
  - pose proof (eqb_longer (String c x) suffix ltac:(done)) as Hne.
    rewrite app_cons in *. simpl. simpl in Hne. rewrite Hne. by rewrite IH.
Qed.

(** In the words of the spec, the inverted variant of [x_large.png] is
    [x_white_large.png]. *)
Lemma spec_white_name_large x :
  x <> EmptyString -> spec_white_name (x +:+ "_large.png") = x +:+ "_white_large.png".
Proof.
  intros Hx. unfold spec_white_name.
  change (x +:+ "_large.png") with (x +:+ "_large" +:+ ".png").
  rewrite <- (app_assoc x "_large" ".png"), stem_png by by apply app_not_nil.
  by rewrite strip_suffix_app.
Qed.

(** The code gives that name exactly when [replace] finds no ["_large"]
    in the page name. *)
Lemma white_name_matches_spec page :
  let large := page +:+ "_logo_0_main_logo_large.png" in
  white_name large = spec_white_name large <-> replace "_large" EmptyString page = page.
Proof.
  intros large. unfold large. rewrite white_name_main.
  change (page +:+ "_logo_0_main_logo_large.png")
    with (page +:+ "_logo_0_main_logo" +:+ "_large.png").
  rewrite <- (app_assoc page "_logo_0_main_logo" "_large.png").
  rewrite spec_white_name_large by by apply app_not_nil.
  rewrite app_assoc. split.
  - intros Heq.
    assert (Hlen : String.length (replace "_large" EmptyString page) = String.length page).
    { apply (f_equal String.length) in Heq. rewrite !length_app in Heq.
      simpl in Heq. lia. }
    clear -Heq Hlen. revert Heq Hlen.
    generalize (replace "_large" EmptyString page) as q. intros q. revert q.
    induction page as [|c p IH]; intros [|d q] Heq Hlen; try done.
    rewrite !app_cons in Heq. inversion Heq; subst. f_equal. apply IH; [done|].
    simpl in Hlen. lia.
  - by intros ->.
Qed.

End WhiteName.

(** C5 at a page named after a document [brand_large.pdf]: every operation
    succeeds and the three resized files carry the crop's base name, but
    the inverted file is named without the ["_large"] of the page name,
    which is not the name obtained by stripping the size suffix of the
    large variant. *)
Theorem inverted_name_drops_every_large :
  let large := "brand_large.pdf.png_logo_0_main_logo_large.png" in
  let r := run_extraction (sample_tools sample_page) "brand_large.pdf"
             (empty_fs {["brand_large.pdf"]}) in
  white_name large = "brand.pdf.png_logo_0_main_logo_white_large.png" /\
  spec_white_name large = "brand_large.pdf.png_logo_0_main_logo_white_large.png" /\
  r.1 = Ret true /\
  is_Some (final r.2 !! large) /\
  is_Some (final r.2 !! "brand.pdf.png_logo_0_main_logo_white_large.png") /\
  final r.2 !! "brand_large.pdf.png_logo_0_main_logo_white_large.png" = None.
Proof. vm_compute. repeat split; eauto. Qed.

(** Two crops can even share the name of their inverted variant. *)
Example inverted_names_collide :
  white_name "a_large.png_logo_0_icon_large.png" = white_name "a.png_logo_0_icon_large.png".
Proof. by vm_compute. Qed.

(** * Running the pipeline again *)

(** An inverted variant is itself a [*_large.png] file: the next
    [create_white_versions] inverts it under a name with the marker twice. *)
Lemma white_of_white_name x :
  white_name (x +:+ "_white_large.png")
  = Str.replace "_large" EmptyString x +:+ "_white_white_large.png".
Proof.
  change (x +:+ "_white_large.png") with (x +:+ "_white_large" +:+ ".png").
  by rewrite (white_name_page x "_white_large").
Qed.

Lemma create_white_versions_accumulates T fs r fs' x :
  listing_ok T -> sips_succeeds T ->
  is_Some (final fs !! (x +:+ "_white_large.png")) ->
  create_white_versions T fs = (r, fs') ->
  is_Some (final fs' !! (Str.replace "_large" EmptyString x +:+ "_white_white_large.png")).
Proof.
  intros Hls Hok Hx Hrun. unfold create_white_versions in Hrun.
  apply (steps_dom T invert_cmd (fun l => (FinalDir, l)) (fun l => (FinalDir, white_name l))
           _ fs r fs' FinalDir Hok) in Hrun as [_ Hdom].
  2:{ intros l [Hl _]%glob_elem. split; [done|]. by apply Hls. }
  simpl in Hdom. apply elem_of_dom. rewrite Hdom, elem_of_union, elem_of_map_set. right.
  exists (x +:+ "_white_large.png"). split; [|by rewrite white_of_white_name].
  apply glob_dom; [done|]. split; [by apply elem_of_dom|].
  by apply StrFacts.wild_star_absorb.
Qed.

Lemma elem_of_crop_items regs it :
  it ∈ crop_items regs -> exists rs, (it.1, rs) ∈ regs.
Proof.
  unfold crop_items. rewrite list_elem_of_In, in_flat_map.
  intros ([page rs] & Hpd & Hit). apply in_map_iff in Hit as (ir & <- & _).
  exists rs. by apply list_elem_of_In.
Qed.

(** A run on a tree that already holds an inverted variant, as every
    successful run leaves it, adds a file with the marker twice. *)
Lemma rerun_accumulates T pdf_path fs fs1 x :
  listing_ok T -> sips_succeeds T ->
  pdf_path ∈ docs fs ->
  extract_pdf_pages T pdf_path fs = (Ret true, fs1) ->
  is_Some (final fs !! (x +:+ "_white_large.png")) ->
  exists fs',
    run_extraction T pdf_path fs = (Ret true, fs') /\
    is_Some (final fs' !! (Str.replace "_large" EmptyString x +:+ "_white_white_large.png")).
Proof.
  intros Hls Hok Hdoc Hext Hx.
  rewrite (run_extraction_stages T pdf_path fs fs1 Hdoc Hext).
  assert (Hf1 : final fs1 = final fs)
    by exact (extract_pdf_pages_other_dir T pdf_path fs (Ret true) fs1 FinalDir
                ltac:(done) Hext).
  assert (Hx1 : is_Some (final fs1 !! (x +:+ "_white_large.png"))) by by rewrite Hf1.
  (* cropping *)
  destruct (crop_logos T (detect_logo_regions T fs1) fs1) as [r2 fs2] eqn:Hcrop.
  pose proof Hcrop as Hcrop'. rewrite crop_logos_steps in Hcrop'.
  apply (steps_dom T (fun it => crop_cmd it.1 it.2) (fun it => (PagesDir, it.1))
           (fun it => (ProcessedDir, crop_output_name it.1 it.2.1 it.2.2))
           _ fs1 r2 fs2 ProcessedDir Hok) in Hcrop' as [-> _].
  2:{ intros it [rs Hit]%elem_of_crop_items. split; [done|].
      apply detect_logo_regions_regs in Hit as [_ Hit].
      apply glob_elem in Hit as [Hit _]. by apply Hls. }
  assert (Hf2 : final fs2 = final fs1)
    by exact (crop_logos_other_dir T _ fs1 (Ret tt) fs2 FinalDir ltac:(done) Hcrop).
  assert (Hx2 : is_Some (final fs2 !! (x +:+ "_white_large.png"))) by by rewrite Hf2.
  (* resizing *)
  destruct (optimize_logos T fs2) as [r3 fs3] eqn:Hopt.
  pose proof Hopt as Hopt'. rewrite optimize_logos_steps in Hopt'.
  assert (Hx3 : is_Some (final fs3 !! (x +:+ "_white_large.png"))).
  { by apply (steps_keep T (fun it => resize_cmd it.1 it.2) (fun it => (ProcessedDir, it.1))
                (fun it => (FinalDir, variant_name (Str.stem it.1) it.2.2))
                _ fs2 r3 fs3 FinalDir _ Hopt'). }
  apply (steps_dom T (fun it => resize_cmd it.1 it.2) (fun it => (ProcessedDir, it.1))
           (fun it => (FinalDir, variant_name (Str.stem it.1) it.2.2))
           _ fs2 r3 fs3 FinalDir Hok) in Hopt' as [-> _].
  2:{ intros it [Hit _]%elem_of_resize_items. split; [done|].
      apply glob_elem in Hit as [Hit _]. by apply Hls. }
  (* inverting *)
  destruct (create_white_versions T fs3) as [r4 fs4] eqn:Hwhite.
  pose proof (create_white_versions_accumulates T fs3 r4 fs4 x Hls Hok Hx3 Hwhite) as Hx4.
  unfold create_white_versions in Hwhite.
  apply (steps_dom T invert_cmd (fun l => (FinalDir, l)) (fun l => (FinalDir, white_name l))
           _ fs3 r4 fs4 FinalDir Hok) in Hwhite as [-> _].
  2:{ intros l [Hl _]%glob_elem. split; [done|]. by apply Hls. }
  (* publishing *)
  destruct (generate_web_assets_spec T fs4 Hls) as (fs5 & -> & Hfinal5 & _).
  exists fs5. split; [done|]. by rewrite Hfinal5.
Qed.

(** C1 on the sample document: the second run of the pipeline leaves ten
    files in [final_dir] where the first left eight; the two new names
    carry the ["white"] marker twice. *)
Theorem second_run_adds_files :
  let T := sample_tools sample_page in
  let r1 := run_extraction T "a.pdf" (empty_fs {["a.pdf"]}) in
  let r2 := run_extraction T "a.pdf" r1.2 in
  r1.1 = Ret true /\ r2.1 = Ret true /\
  size (final r1.2) = 8%nat /\ size (final r2.2) = 10%nat /\
  final r1.2 !! "a.pdf.png_logo_0_main_logo_white_white_large.png" = None /\
  final r1.2 !! "a.pdf.png_logo_1_icon_white_white_large.png" = None /\
  is_Some (final r2.2 !! "a.pdf.png_logo_0_main_logo_white_white_large.png") /\
  is_Some (final r2.2 !! "a.pdf.png_logo_1_icon_white_white_large.png").
Proof. vm_compute. repeat split; eauto. Qed.

(** * What the stages keep *)

Section Respect.

Variable R : FS -> FS -> Prop.
Hypothesis R_refl : forall fs, R fs fs.
Hypothesis R_trans : forall a b c, R a b -> R b c -> R a c.

Lemma respects_ret {A} (a : A) : respects R (ret a).
Proof. intros fs r fs' [= _ <-]. apply R_refl. Qed.

Lemma respects_bind {A B} (m : M A) (k : A -> M B) :
  respects R m -> (forall a, respects R (k a)) -> respects R (bind m k).
Proof.
  intros Hm Hk fs r fs'. unfold bind.
  destruct (m fs) as [[a|e] fs1] eqn:E.
  - intros Hrun. eapply R_trans; [by eapply Hm|by eapply Hk].
  - intros [= _ <-]. by eapply Hm.
Qed.

Lemma respects_for_each {X} (xs : list X) (body : X -> M unit) :
  (forall x, x ∈ xs -> respects R (body x)) -> respects R (for_each xs body).
Proof.
  intros Hbody fs r fs' Hrun.
  apply (for_each_invariant (R fs) xs body fs r fs'); [|apply R_refl|done].
  intros x fs0 r0 fs1 Hx H0 Hstep. eapply R_trans; [done|by eapply Hbody].
Qed.

Lemma respects_try_methods (ms : list (M bool)) :
  (forall m, m ∈ ms -> respects R m) -> respects R (try_methods ms).
Proof.
  intros Hms fs r fs' Hrun.
  apply (try_methods_invariant (R fs) ms fs r fs'); [|apply R_refl|done].
  intros m fs0 r0 fs1 Hm H0 Hstep. eapply R_trans; [done|by eapply Hms].
Qed.

(** The steps every stage is made of. *)
Hypothesis R_log : forall c fs, R fs (log c fs).
Hypothesis R_write_pages : forall n img fs, R fs (write (PagesDir, n) img fs).

Lemma respects_write_all files fs : R fs (write_all PagesDir files fs).
Proof.
  revert fs. unfold write_all. induction files as [|[n i] files IH]; intros fs; [apply R_refl|].
  simpl. eapply R_trans; [apply R_write_pages|apply IH].
Qed.

Lemma respects_run_rasterizer T c : respects R (run_rasterizer T c).
Proof.
  intros fs r fs'. rewrite run_rasterizer_spec. intros [= _ <-].
  eapply R_trans; [apply R_log|apply respects_write_all].
Qed.

Lemma respects_extract_pdf_pages T pdf_path : respects R (extract_pdf_pages T pdf_path).
Proof.
  apply respects_try_methods. intros m Hm.
  rewrite !elem_of_cons, elem_of_nil in Hm.
  destruct Hm as [->|[->|[->|[]]]];
    [apply respects_run_rasterizer..|apply (respects_ret false)].
Qed.

Hypothesis R_write_work : forall f n img fs,
  f = ProcessedDir \/ f = FinalDir -> R fs (write (f, n) img fs).
Hypothesis R_write_published : forall n img fs,
  n ∈ published_names -> R fs (write (ImagesDir, n) img fs).

Lemma respects_try_run T c src f n :
  f = ProcessedDir \/ f = FinalDir -> respects R (try_run T c src (f, n)).
Proof.
  intros Hf fs r fs'. rewrite try_run_spec.
  destruct (sips T c (read src fs)); intros [= _ <-]; [|apply R_log..].
  eapply R_trans; [apply R_log|by apply R_write_work].
Qed.

Lemma respects_publish T pat dst :
  dst ∈ published_names -> respects R (publish T pat dst).
Proof.
  intros Hdst fs r fs'. unfold publish, copy2.
  destruct (glob T pat (final fs)) as [|first rest]; [intros [= _ <-]; apply R_refl|].
  destruct (read (FinalDir, first) fs); intros [= _ <-]; [|apply R_refl].
  by apply R_write_published.
Qed.

(** The stages after the rasterization. *)
Lemma respects_stages T :
  respects R
    (fun fs1 => (run crop_logos T (detect_logo_regions T fs1) then
                 run optimize_logos T then
                 run create_white_versions T then
                 run generate_web_assets T then
                 ret true) fs1).
Proof.
  assert (Hcrop : forall regs, respects R (crop_logos T regs)).
  { intros regs. apply respects_for_each. intros pd _. apply respects_for_each.
    intros ir _. apply respects_try_run. by left. }
  assert (Hopt : respects R (optimize_logos T)).
  { intros fs r fs'. unfold optimize_logos.
    apply respects_for_each. intros l _. apply respects_for_each.
    intros ss _. apply respects_try_run. by right. }
  assert (Hwhite : respects R (create_white_versions T)).
  { intros fs r fs'. unfold create_white_versions.
    apply respects_for_each. intros l _. apply respects_try_run. by right. }
  assert (Hgen : respects R (generate_web_assets T)).
  { unfold generate_web_assets. repeat (apply respects_bind; [|intros _]);
      apply respects_publish; unfold published_names; in_list. }
  intros fs1. apply respects_bind; [apply Hcrop|intros _].
  repeat (apply respects_bind; [done|intros _]). apply respects_ret.
Qed.

Lemma respects_run_extraction T pdf_path : respects R (run_extraction T pdf_path).
Proof.
  intros fs r fs'. unfold run_extraction.
  destruct (negb _); [intros [= _ <-]; apply R_refl|].
  apply respects_bind; [apply respects_extract_pdf_pages|].
  intros [|]; [apply respects_stages|apply respects_ret].
Qed.

End Respect.

Lemma keeps_files_refl fs : keeps_files fs fs.
Proof. by intros f n. Qed.

Lemma keeps_files_trans a b c : keeps_files a b -> keeps_files b c -> keeps_files a c.
Proof. intros Hab Hbc f n Hn. by apply Hbc, Hab. Qed.

Lemma keeps_files_log c fs : keeps_files fs (log c fs).
Proof. intros f n. by rewrite dir_of_log. Qed.

Lemma keeps_files_write p img fs : keeps_files fs (write p img fs).
Proof.
  intros f n Hn. rewrite dir_of_write. case_decide; [|done].
  rewrite lookup_insert. by case_decide.
Qed.

(** X1: [run_extraction] never removes a file: whatever the tools do, and
    whether the run returns or raises, every file that was in [pages/],
    [processed/], [final/] or [images/] before the run is there after it. *)
Theorem run_extraction_keeps_files (T : Tools) (pdf_path : string) (fs fs' : FS) r :
  run_extraction T pdf_path fs = (r, fs') -> keeps_files fs fs'.
Proof.
  apply (respects_run_extraction keeps_files keeps_files_refl keeps_files_trans
           keeps_files_log).
  - intros n img fs0. apply keeps_files_write.
  - intros f n img fs0 _. apply keeps_files_write.
  - intros n img fs0 _. apply keeps_files_write.
Qed.

Lemma run_extraction_keeps_files_witness :
  let T := failing_tools crops_main_logo sample_page in
  let fs := mkFS {["a.pdf"]} ∅ ∅ ∅ {["old_white_large.png" := sample_page]}
              {["client-icon.png" := sample_page]} [] in
  keeps_files fs (run_extraction T "a.pdf" fs).2.
Proof.
  intros T fs.
  apply (run_extraction_keeps_files T "a.pdf" fs _ (run_extraction T "a.pdf" fs).1).
  apply surjective_pairing.
Defined.

(** What [run_extraction] is once the document exists and the rasterization
    has been run. *)
Lemma run_extraction_after_extract T pdf_path fs b fs1 :
  pdf_path ∈ docs fs ->
  extract_pdf_pages T pdf_path fs = (b, fs1) ->
  run_extraction T pdf_path fs =
    match b with
    | Ret true =>
        (run crop_logos T (detect_logo_regions T fs1) then
         run optimize_logos T then
         run create_white_versions T then
         run generate_web_assets T then
         ret true) fs1
    | Ret false => (Ret false, fs1)
    | Raise e => (Raise e, fs1)
    end.
Proof.
  intros Hdoc Hext. unfold run_extraction.
  rewrite bool_decide_eq_true_2 by done. simpl.
  unfold bind at 1. rewrite Hext. by destruct b as [[]|].
Qed.

(** The result and the state of [extract_pdf_pages], by the exit status of
    the two rasterizers. *)
Lemma extract_pdf_pages_result T pdf_path fs :
  let q := Qlmanage 3000 PagesDir pdf_path in
  let s := SipsFormat pdf_path (PagesDir, "page_%d.png") in
  let fs1 := write_all PagesDir (written_by (rasterize T q)) (log q fs) in
  let fs2 := write_all PagesDir (written_by (rasterize T s)) (log s fs1) in
  extract_pdf_pages T pdf_path fs =
    (Ret (exit_zero (rasterize T q) || exit_zero (rasterize T s)),
     if exit_zero (rasterize T q) then fs1 else fs2).
Proof.
  intros q s fs1 fs2.
  unfold extract_pdf_pages, _extract_with_qlmanage, _extract_with_sips. fold q s.
  pose proof (run_rasterizer_spec T q fs) as Hq. fold fs1 in Hq.
  pose proof (run_rasterizer_spec T s fs1) as Hs. fold fs2 in Hs.
  destruct (exit_zero (rasterize T q)) eqn:Eq.
  - apply try_methods_hit. rewrite Hq.
    destruct (rasterize T q); simpl in Eq; [by rewrite Eq|done].
  - erewrite try_methods_miss; [| exact Hq |].
    2:{ destruct (rasterize T q); simpl in Eq; [by rewrite Eq|done]. }
    destruct (exit_zero (rasterize T s)) eqn:Es.
    + apply try_methods_hit. rewrite Hs.
      destruct (rasterize T s); simpl in Es; [by rewrite Es|done].
    + erewrite try_methods_miss; [done| exact Hs |].
      destruct (rasterize T s); simpl in Es; [by rewrite Es|done].
Qed.

(** X2: when the document exists but neither rasterizer exits with status
    zero, [run_extraction] returns [False] after running the two
    rasterizers and nothing else: no [sips] crop, resize or invert is run
    and [processed/], [final/] and [images/] are as they were.  What the
    failed rasterizers wrote to [pages/] stays. *)
Theorem rasterization_exhausted (T : Tools) (pdf_path : string) (fs : FS) :
  let q := Qlmanage 3000 PagesDir pdf_path in
  let s := SipsFormat pdf_path (PagesDir, "page_%d.png") in
  pdf_path ∈ docs fs ->
  exit_zero (rasterize T q) = false -> exit_zero (rasterize T s) = false ->
  exists fs',
    run_extraction T pdf_path fs = (Ret false, fs') /\
    trace fs' = (trace fs ++ [q; s])%list /\
    processed fs' = processed fs /\ final fs' = final fs /\ images fs' = images fs /\
    pages fs' = pages (write_all PagesDir (written_by (rasterize T q) ++ written_by (rasterize T s)) fs).
Proof.
  intros q s Hdoc Hq Hs.
  pose proof (extract_pdf_pages_result T pdf_path fs) as Hext. simpl in Hext.
  fold q s in Hext. rewrite Hq, Hs in Hext. simpl in Hext.
  eexists. split; [by rewrite (run_extraction_after_extract T pdf_path fs _ _ Hdoc Hext)|].
  split; [|split; [|split; [|split]]].
  - rewrite !write_all_trace. simpl. rewrite write_all_trace. simpl.
    by rewrite <- app_assoc.
  - change (processed ?x) with (dir_of ProcessedDir x).
    by rewrite !dir_of_write_all_other, !dir_of_log, !dir_of_write_all_other, !dir_of_log.
  - change (final ?x) with (dir_of FinalDir x).
    by rewrite !dir_of_write_all_other, !dir_of_log, !dir_of_write_all_other, !dir_of_log.
  - change (images ?x) with (dir_of ImagesDir x).
    by rewrite !dir_of_write_all_other, !dir_of_log, !dir_of_write_all_other, !dir_of_log.
  - unfold write_all. rewrite foldl_app.
    generalize (written_by (rasterize T s)) as l2.
    generalize (written_by (rasterize T q)) as l1. clear.
    assert (Hlog : forall l c fs0,
      pages (foldl (fun acc nf => write (PagesDir, nf.1) nf.2 acc) (log c fs0) l)
      = pages (foldl (fun acc nf => write (PagesDir, nf.1) nf.2 acc) fs0 l)).
    { induction l as [|[n i] l IH]; intros c fs0; [done|]. simpl.
      change (write (PagesDir, n) i (log c fs0)) with (log c (write (PagesDir, n) i fs0)).
      apply IH. }
    assert (Hcong : forall l a b, pages a = pages b ->
      pages (foldl (fun acc nf => write (PagesDir, nf.1) nf.2 acc) a l)
      = pages (foldl (fun acc nf => write (PagesDir, nf.1) nf.2 acc) b l)).
    { induction l as [|[n i] l IH]; intros a b Hab; [done|]. simpl.
      apply IH. simpl. by rewrite Hab. }
    intros l1 l2. rewrite Hlog. apply Hcong. apply Hlog.
Qed.

Lemma rasterization_exhausted_witness :
  let T := raster_tools (RasterExited 1 [("partial.png", sample_page)]) in
  let fs := empty_fs {["a.pdf"]} in
  exists fs',
    run_extraction T "a.pdf" fs = (Ret false, fs') /\
    trace fs' = [Qlmanage 3000 PagesDir "a.pdf"; SipsFormat "a.pdf" (PagesDir, "page_%d.png")] /\
    processed fs' = ∅ /\ final fs' = ∅ /\ images fs' = ∅ /\
    pages fs' = {["partial.png" := sample_page]}.
Proof.
  intros T fs.
  destruct (rasterization_exhausted T "a.pdf" fs) as (fs' & Hrun & Htrace & Hp & Hf & Hi & Hpages);
    [by vm_compute|reflexivity|reflexivity|].
  exists fs'. by repeat split.
Defined.

(** X3: once the rasterization is over, [pages/] is not written any more:
    whatever the other stages do, and whether they return or raise, the
    page rasters after the run are those the rasterization left. *)
Theorem pages_fixed_after_rasterization (T : Tools) (pdf_path : string) (fs fs1 fs' : FS) b r :
  pdf_path ∈ docs fs ->
  extract_pdf_pages T pdf_path fs = (b, fs1) ->
  run_extraction T pdf_path fs = (r, fs') ->
  pages fs' = pages fs1.
Proof.
  intros Hdoc Hext. rewrite (run_extraction_after_extract T pdf_path fs b fs1 Hdoc Hext).
  destruct b as [[]|e]; [|by intros [= _ <-]..].
  apply (respects_stages (fun a b => pages b = pages a)); try done.
  - intros a b c Hab Hbc. by rewrite Hbc.
  - by intros f n img fs0 [->| ->].
Qed.

(** X15: a run writes nothing in [images/] but the three canonical files:
    whatever the tools do, and whether the run returns or raises, every
    other file of [images/] is after the run what it was before. *)
Theorem run_extraction_spares_other_images (T : Tools) (pdf_path : string) (fs fs' : FS) r :
  run_extraction T pdf_path fs = (r, fs') ->
  forall n, n ∉ published_names -> images fs' !! n = images fs !! n.
Proof.
  apply (respects_run_extraction
           (fun a b => forall n, n ∉ published_names -> images b !! n = images a !! n)).
  - done.
  - intros a b c Hab Hbc n Hn. by rewrite Hbc, Hab.
  - done.
  - done.
  - by intros f n img fs0 [->| ->].
  - intros n img fs0 Hn m Hm. simpl. rewrite lookup_insert_ne; [done|].
    by intros ->.
Qed.

Lemma run_extraction_spares_other_images_witness :
  let T := sample_tools sample_page in
  let fs := mkFS {["a.pdf"]} ∅ ∅ ∅ ∅ {["hero.png" := Image 8 8 []]} [] in
  images (run_extraction T "a.pdf" fs).2 !! "hero.png" = Some (Image 8 8 []).
Proof.
  intros T fs.
  rewrite (run_extraction_spares_other_images T "a.pdf" fs _
             (run_extraction T "a.pdf" fs).1 (surjective_pairing _) "hero.png").
  - reflexivity.
  - unfold published_names. rewrite !not_elem_of_cons. repeat split; try discriminate.
    apply not_elem_of_nil.
Defined.

Lemma pages_fixed_after_rasterization_witness :
  let T := sample_tools sample_page in
  pages (run_extraction T "a.pdf" (empty_fs {["a.pdf"]})).2
  = pages (extract_pdf_pages T "a.pdf" (empty_fs {["a.pdf"]})).2.
Proof.
  intros T.
  apply (pages_fixed_after_rasterization T "a.pdf" (empty_fs {["a.pdf"]}) _ _
           (extract_pdf_pages T "a.pdf" (empty_fs {["a.pdf"]})).1
           (run_extraction T "a.pdf" (empty_fs {["a.pdf"]})).1).
  - by vm_compute.
  - apply surjective_pairing.
  - apply surjective_pairing.
Defined.

Lemma glob_nil T pat (d : gmap string image) :
  listing_ok T -> (forall n, is_Some (d !! n) -> Str.wild pat n = false) ->
  glob T pat d = [].
Proof.
  intros Hls Hno. destruct (glob T pat d) as [|n l] eqn:E; [done|].
  assert (Hn : n ∈ glob T pat d) by (rewrite E; left).
  apply glob_elem in Hn as [Hn Hw]. apply Hls in Hn. apply Hno in Hn. congruence.
Qed.

Lemma glob_empty T pat : listing_ok T -> glob T pat ∅ = [].
Proof.
  intros Hls. apply glob_nil; [done|]. intros n [x Hx]. by rewrite lookup_empty in Hx.
Qed.

(** X4: when the rasterization succeeds but leaves no [*.png] page, a run
    on a fresh output tree returns [True] having done nothing else: no
    [sips] command is run and nothing is cropped, resized or published. *)
Theorem no_page_no_work (T : Tools) (pdf_path : string) (fs fs1 : FS) :
  listing_ok T ->
  pdf_path ∈ docs fs ->
  processed fs = ∅ -> final fs = ∅ ->
  extract_pdf_pages T pdf_path fs = (Ret true, fs1) ->
  (forall n, is_Some (pages fs1 !! n) -> Str.wild "*.png" n = false) ->
  run_extraction T pdf_path fs = (Ret true, fs1).
Proof.
  intros Hls Hdoc Hproc Hfinal Hext Hpages.
  rewrite (run_extraction_after_extract T pdf_path fs _ fs1 Hdoc Hext).
  assert (Hproc1 : processed fs1 = ∅).
  { rewrite <- Hproc.
    exact (extract_pdf_pages_other_dir T pdf_path fs (Ret true) fs1 ProcessedDir
             ltac:(done) Hext). }
  assert (Hfinal1 : final fs1 = ∅).
  { rewrite <- Hfinal.
    exact (extract_pdf_pages_other_dir T pdf_path fs (Ret true) fs1 FinalDir
             ltac:(done) Hext). }
  unfold detect_logo_regions. rewrite (glob_nil T "*.png" (pages fs1) Hls Hpages).
  unfold bind, crop_logos, optimize_logos, create_white_versions, generate_web_assets,
    publish, bind, ret. simpl.
  rewrite Hproc1, glob_empty by done. simpl.
  rewrite Hfinal1, glob_empty by done. simpl.
  rewrite Hfinal1, glob_empty by done. simpl.
  rewrite Hfinal1, glob_empty by done. simpl.
  by rewrite Hfinal1, glob_empty.
Qed.

Lemma no_page_no_work_witness :
  let T := raster_tools (RasterExited 0 [("thumbnail.jpg", sample_page)]) in
  let fs := empty_fs {["a.pdf"]} in
  run_extraction T "a.pdf" fs = (Ret true, (extract_pdf_pages T "a.pdf" fs).2).
Proof.
  intros T fs.
  apply (no_page_no_work T "a.pdf" fs (extract_pdf_pages T "a.pdf" fs).2
           (sample_listdir_ok sample_page)).
  - by vm_compute.
  - reflexivity.
  - reflexivity.
  - reflexivity.
  - intros n [img Hn]. simpl in Hn.
    destruct (decide (n = "thumbnail.jpg")) as [->|Hne]; [reflexivity|].
    by rewrite lookup_insert_ne in Hn.
Defined.

(** * Publishing *)




(** * The names of the resized variants *)

Section VariantNames.
Import Str StrFacts.

Lemma wild_star_literal lit s :
  star_free lit = true -> wild (String "*" lit) s = true -> exists x, s = x +:+ lit.
Proof.
  intros Hfree. induction s as [|c s IH].
  - rewrite wild_star_nil. intros Hw. apply wild_literal in Hw; [|done].
    exists EmptyString. by rewrite <- Hw.
  - rewrite wild_star_cons. intros [Hw|Hw]%orb_prop.
    + apply wild_literal in Hw; [|done]. exists EmptyString. by rewrite Hw.
    + destruct (IH Hw) as [x ->]. by exists (String c x).
Qed.

Lemma app_inj_r (x y t : string) : x +:+ t = y +:+ t -> x = y.
Proof.
  revert y. induction x as [|c x IH]; intros [|d y] Heq; try done.
  - apply (f_equal String.length) in Heq. rewrite app_nil_l, app_cons in Heq.
    simpl in Heq. rewrite length_app in Heq. lia.
  - apply (f_equal String.length) in Heq. rewrite app_nil_l, app_cons in Heq.
    simpl in Heq. rewrite length_app in Heq. lia.
  - rewrite !app_cons in Heq. inversion Heq; subst. f_equal. by apply IH.
Qed.

(** X6: the resized files of two different crops, or of one crop at two
    sizes, never share a name: on the [*.png] files of [processed/] other
    than the bare [.png], the name [optimize_logos] writes to determines
    both the crop and the size. *)
Theorem variant_names_injective (logo1 logo2 : string) (ss1 ss2 : Z * string) :
  wild "*.png" logo1 = true -> wild "*.png" logo2 = true ->
  logo1 <> ".png" -> logo2 <> ".png" ->
  ss1 ∈ sizes -> ss2 ∈ sizes ->
  variant_name (stem logo1) ss1.2 = variant_name (stem logo2) ss2.2 ->
  logo1 = logo2 /\ ss1 = ss2.
Proof.
  intros [x1 ->]%wild_star_literal [x2 ->]%wild_star_literal Hne1 Hne2 Hs1 Hs2; [|done..].
  assert (Hx1 : x1 <> EmptyString) by (intros ->; by apply Hne1).
  assert (Hx2 : x2 <> EmptyString) by (intros ->; by apply Hne2).
  rewrite !stem_png by done. unfold variant_name, sizes in *.
  rewrite !elem_of_cons, elem_of_nil in Hs1, Hs2.
  destruct Hs1 as [->|[->|[->|[]]]]; destruct Hs2 as [->|[->|[->|[]]]]; simpl; intros Heq;
    try (apply app_inj_r in Heq as ->; done); exfalso; revert Heq;
    first [ apply (other_end_ne "_large.png"); [reflexivity|reflexivity|simpl; lia|reflexivity]
          | apply not_eq_sym;
            apply (other_end_ne "_large.png"); [reflexivity|reflexivity|simpl; lia|reflexivity]
          | apply (other_end_ne "_small.png"); [reflexivity|reflexivity|simpl; lia|reflexivity]
          | apply not_eq_sym;
            apply (other_end_ne "_small.png"); [reflexivity|reflexivity|simpl; lia|reflexivity] ].
Qed.

Lemma variant_names_injective_witness :
  "a.png_logo_0_main_logo.png" = "a.png_logo_0_main_logo.png" /\
  (1000, "large") = (1000, "large").
Proof.
  apply (variant_names_injective "a.png_logo_0_main_logo.png" "a.png_logo_0_main_logo.png"
           (1000, "large") (1000, "large")); try reflexivity; try discriminate;
    unfold sizes; in_list.
Defined.

(** The bare [.png] is the exception: it shares its stem with [.png.png]. *)
Example variant_names_of_bare_png :
  variant_name (stem ".png") "large" = variant_name (stem ".png.png") "large".
Proof. by vm_compute. Qed.

End VariantNames.

(** * Which file is published *)

Lemma reversed_listdir_ok page : listing_ok (reversed_tools page).
Proof.
  intros d. simpl. unfold reversed_listdir.
  destruct (sample_listdir_ok page d) as [Hnd Hin]. simpl in Hnd, Hin. split.
  - apply NoDup_ListNoDup, NoDup_rev. by apply NoDup_ListNoDup.
  - intros n. rewrite <- Hin, !list_elem_of_In. symmetry. apply in_rev.
Qed.

(** X7: the pattern of the main logo also matches the inverted variant of
    the main logo, under another name, so a [final/] that holds both has
    two candidates for [client-logo.png]; which one is published is
    decided by the order of the listing: two faithful listings of the same
    directory publish the large variant and its inverted counterpart. *)
Theorem published_main_logo_depends_on_listing :
  (forall page,
     let large := page +:+ "_logo_0_main_logo_large.png" in
     Str.wild "*main_logo*large.png" large = true /\
     Str.wild "*main_logo*large.png" (white_name large) = true /\
     white_name large <> large) /\
  (forall a b : image,
     let fs := mkFS ∅ ∅ ∅ ∅
                 {["p.png_logo_0_main_logo_large.png" := a;
                   white_name "p.png_logo_0_main_logo_large.png" := b]} ∅ [] in
     listing_ok (sample_tools a) /\ listing_ok (reversed_tools a) /\
     images (generate_web_assets (sample_tools a) fs).2 !! "client-logo.png" = Some b /\
     images (generate_web_assets (reversed_tools a) fs).2 !! "client-logo.png" = Some a).
Proof.
  split.
  - intros page large. unfold large. rewrite white_name_main. repeat split.
    + by apply StrFacts.wild_star_absorb.
    + by apply StrFacts.wild_star_absorb.
    + apply (other_end_ne "_white_large.png"); [reflexivity|reflexivity|simpl; lia|reflexivity].
  - intros a b fs. split; [apply sample_listdir_ok|]. split; [apply reversed_listdir_ok|].
    split; by vm_compute.
Qed.

(** * Occurrences and replacement *)

Module OccFacts.
Import Str StrFacts.

Lemma contains_cons old c s :
  contains old (String c s) = starts_with old (String c s) || contains old s.
Proof. reflexivity. Qed.

(** Nothing to replace, nothing changes. *)
Lemma replace_absent old new s : contains old s = false -> replace old new s = s.
Proof.
  unfold replace. induction s as [|c s IH]; [done|].
  rewrite contains_cons. intros [Hsw Hc]%orb_false_elim.
  cbn [replace_from]. rewrite Hsw. f_equal. by apply IH.
Qed.

Lemma contains_app_r old s t : contains old t = true -> contains old (s +:+ t) = true.
Proof.
  intros Ht. induction s as [|c s IH]; [done|].
  rewrite app_cons, contains_cons, IH. apply orb_true_r.
Qed.

Lemma contains_app_no_straddle old s t :
  straddles old t = false -> contains old s = false -> contains old t = false ->
  contains old (s +:+ t) = false.
Proof.
  intros Hst Hs Ht. induction s as [|c s IH]; [done|].
  rewrite contains_cons in Hs. apply orb_false_elim in Hs as [Hsw Hs].
  rewrite app_cons, contains_cons, (IH Hs), orb_false_r.
  destruct (starts_with old (String c (s +:+ t))) eqn:E; [|done].
  rewrite <- app_cons in E. apply no_straddle in E; [congruence|done|done].
Qed.

Lemma contains_app_absent a old' n r :
  has_char a n = false ->
  contains (String a old') (n +:+ r) = contains (String a old') r.
Proof.
  induction n as [|c n IH]; [done|]. simpl has_char.
  intros [Hac Hn]%orb_false_elim.
  rewrite app_cons, contains_cons, (IH Hn). simpl starts_with. by rewrite Hac.
Qed.

Section Replaced.

Variables (a h : ascii) (old' new' : string).

Let old := String a old'.
Let new := String h new'.

Hypothesis first_of_old : has_char a new = false.
Hypothesis first_of_new : has_char h old = false.

(** What the replaced text starts with, the text started with. *)
Lemma starts_with_replaced o s :
  has_char h o = false ->
  starts_with o (replace_from old new 0 s) = true -> starts_with o s = true.
Proof.
  revert s. induction o as [|b o IH]; intros s Ho; [done|].
  simpl in Ho. apply orb_false_elim in Ho as [Hhb Ho].
  destruct s as [|c s]; [done|]. cbn [replace_from].
  destruct (starts_with old (String c s)).
  - unfold new. rewrite app_cons. simpl. rewrite Ascii.eqb_sym, Hhb. done.
  - simpl. intros [-> Hsw]%andb_prop. by rewrite (IH s Ho Hsw).
Qed.

(** After the replacement no occurrence of [old] is left, provided the
    first character of [old] is not in [new] and the first character of
    [new] is not in [old]. *)
Lemma contains_replace_from s k : contains old (replace_from old new k s) = false.
Proof.
  revert k. induction s as [|c s IH]; intros k; [by destruct k|].
  destruct k as [|k]; cbn [replace_from]; [|apply IH].
  destruct (starts_with old (String c s)) eqn:E.
  - unfold old at 1. rewrite contains_app_absent by done. apply IH.
  - rewrite contains_cons, IH, orb_false_r.
    destruct (starts_with old (String c (replace_from old new 0 s))) eqn:E'; [|done].
    assert (Hsw : starts_with old (replace_from old new 0 (String c s)) = true)
      by (cbn [replace_from]; by rewrite E).
    apply starts_with_replaced in Hsw; [congruence|done].
Qed.

End Replaced.

Lemma contains_replace a h old' new' s :
  has_char a (String h new') = false -> has_char h (String a old') = false ->
  contains (String a old') (replace (String a old') (String h new') s) = false.
Proof. intros H1 H2. by apply contains_replace_from. Qed.

End OccFacts.

(** * [HardFeelingsLogoReplacer]: pages and stylesheet *)

Module ReplacerMore.
Import Replacer OccFacts.

Lemma writes_app l1 l2 : writes (l1 ++ l2) = (writes l1 + writes l2)%nat.
Proof. unfold writes. by rewrite List.filter_app, length_app. Qed.

Lemma apply_replacements_absent c :
  mentions_old_logo c = false -> apply_replacements c = c.
Proof.
  unfold mentions_old_logo, apply_replacements, logo_replacements. simpl.
  intros H. repeat (apply orb_false_elim in H as [?H H]).
  by rewrite (replace_absent _ _ c H0), (replace_absent _ _ c H1),
    (replace_absent _ _ c H2), (replace_absent _ _ c H3).
Qed.

(** One call: what it returns, what it writes, what it leaves. *)
Lemma replace_logos_in_file_step p st :
  let r := replace_logos_in_file p st in
  writes (accesses r.2) = (writes (accesses st) + if r.1 then 1 else 0)%nat /\
  (forall q, q <> p -> files r.2 !! q = files st !! q) /\
  (r.1 = false -> files r.2 = files st) /\
  (forall c, files st !! p = Some (Text c) ->
     files r.2 !! p = Some (Text (apply_replacements c))).
Proof.
  unfold replace_logos_in_file.
  destruct (files st !! p) as [[c|d]|] eqn:Hp; simpl.
  - destruct (negb (apply_replacements c =? c)%string) eqn:Hchg; simpl.
    + rewrite !writes_app. unfold writes. simpl. repeat split; [lia| |done|].
      * intros q Hq. by rewrite lookup_insert_ne.
      * intros c' [= <-]. by rewrite lookup_insert_eq.
    + rewrite !writes_app. unfold writes. simpl. repeat split; [lia|done..|].
      intros c' [= <-]. apply negb_false_iff, String.eqb_eq in Hchg.
      by rewrite Hchg.
  - rewrite !writes_app. unfold writes. simpl.
    split; [lia|]. split; [done|]. split; [done|]. by intros c' [=].
  - rewrite !writes_app. unfold writes. simpl.
    split; [lia|]. split; [done|]. split; [done|]. by intros c' [=].
Qed.

Lemma replace_logos_in_file_unchanged p c st :
  files st !! p = Some (Text c) ->
  mentions_old_logo c = false ->
  replace_logos_in_file p st = (false, note (Read p) (note (Exists p) st)).
Proof.
  intros Hp Hno. unfold replace_logos_in_file. rewrite Hp.
  by rewrite (apply_replacements_absent c Hno), String.eqb_refl.
Qed.

(** X8: a page that names none of the four old logos is not rewritten:
    [replace_logos_in_file] reads it, returns [False] and writes nothing,
    so its content and every other file stay as they were. *)
Theorem page_without_old_logo_untouched (p c : string) (st : state) :
  files st !! p = Some (Text c) ->
  mentions_old_logo c = false ->
  let r := replace_logos_in_file p st in
  r.1 = false /\ files r.2 = files st /\ writes (accesses r.2) = writes (accesses st).
Proof.
  intros Hp Hno r. subst r. rewrite (replace_logos_in_file_unchanged p c st Hp Hno).
  simpl. split; [done|]. split; [done|].
  rewrite !writes_app. unfold writes. simpl. lia.
Qed.

Lemma page_without_old_logo_untouched_witness :
  let st := mkState {["index.html" := Text "<img src=images/hard-feelings-logo.png>"]} [] in
  let r := replace_logos_in_file "index.html" st in
  r.1 = false /\ files r.2 = files st /\ writes (accesses r.2) = writes (accesses st).
Proof.
  intros st.
  apply (page_without_old_logo_untouched "index.html"
           "<img src=images/hard-feelings-logo.png>" st); reflexivity.
Defined.

(** X9: the count [replace_in_files] returns is the number of files it
    wrote: it grows by one for each page rewritten, by at most one per
    path, and every file outside the given paths is left as it was. *)
Theorem replace_in_files_counts_writes (paths : list string) (n : nat) (st : state) :
  let r := replace_in_files paths n st in
  writes (accesses r.2) = (writes (accesses st) + (r.1 - n))%nat /\
  (n <= r.1 <= n + length paths)%nat /\
  (forall q, q ∉ paths -> files r.2 !! q = files st !! q).
Proof.
  revert n st. induction paths as [|p paths IH]; intros n st; simpl.
  - split; [lia|]. split; [lia|done].
  - pose proof (replace_logos_in_file_step p st) as (Hw & Hframe & _ & _). simpl in Hw, Hframe.
    destruct (replace_logos_in_file p st) as [[] st1]; simpl in *.
    + destruct (IH (n + 1)%nat st1) as (IHw & IHn & IHf).
      split; [lia|]. split; [lia|].
      intros q Hq. apply not_elem_of_cons in Hq as [Hqp Hq].
      by rewrite IHf, Hframe.
    + destruct (IH n st1) as (IHw & IHn & IHf).
      split; [lia|]. split; [lia|].
      intros q Hq. apply not_elem_of_cons in Hq as [Hqp Hq].
      by rewrite IHf, Hframe.
Qed.

Lemma update_css_styles_text st c :
  files st !! css_file = Some (Text c) ->
  files (update_css_styles st) = <[css_file := Text (css_after c)]> (files st).
Proof. intros Hc. unfold update_css_styles. by rewrite Hc. Qed.

Lemma css_after_no_marker c : Str.contains "Client Logo Styles" (css_after c) = false.
Proof.
  unfold css_after. destruct (Str.contains "Client Logo Styles" c) eqn:E.
  - by apply contains_replace.
  - by apply contains_app_no_straddle.
Qed.

(** X10: [update_css_styles] is not idempotent: after a call on a readable
    stylesheet the old marker is gone, so every further call appends the
    whole block of logo styles once more. *)
Theorem stylesheet_grows_on_every_rerun (st : state) (c : string) :
  files st !! css_file = Some (Text c) ->
  exists c1,
    files (update_css_styles st) !! css_file = Some (Text c1) /\
    Str.contains "Client Logo Styles" c1 = false /\
    files (update_css_styles (update_css_styles st)) !! css_file
      = Some (Text (c1 +:+ logo_css)) /\
    files (update_css_styles (update_css_styles (update_css_styles st))) !! css_file
      = Some (Text ((c1 +:+ logo_css) +:+ logo_css)).
Proof.
  intros Hc. exists (css_after c).
  assert (Hgrow : forall st0 c0, files st0 !! css_file = Some (Text c0) ->
            Str.contains "Client Logo Styles" c0 = false ->
            files (update_css_styles st0) !! css_file = Some (Text (c0 +:+ logo_css))).
  { intros st0 c0 H0 Hno. rewrite (update_css_styles_text st0 c0 H0), lookup_insert_eq.
    unfold css_after. by rewrite Hno. }
  assert (H1 : files (update_css_styles st) !! css_file = Some (Text (css_after c)))
    by by rewrite (update_css_styles_text st c Hc), lookup_insert_eq.
  pose proof (css_after_no_marker c) as Hno.
  pose proof (Hgrow _ _ H1 Hno) as H2.
  split; [done|]. split; [done|]. split; [done|].
  apply Hgrow; [done|]. by apply contains_app_no_straddle.
Qed.

Lemma stylesheet_grows_on_every_rerun_witness :
  let st := mkState {[css_file := Text "body { margin: 0; }"]} [] in
  exists c1,
    files (update_css_styles st) !! css_file = Some (Text c1) /\
    Str.contains "Client Logo Styles" c1 = false /\
    files (update_css_styles (update_css_styles st)) !! css_file
      = Some (Text (c1 +:+ logo_css)) /\
    files (update_css_styles (update_css_styles (update_css_styles st))) !! css_file
      = Some (Text ((c1 +:+ logo_css) +:+ logo_css)).
Proof.
  intros st. apply (stylesheet_grows_on_every_rerun st "body { margin: 0; }").
  reflexivity.
Defined.






End ReplacerMore.

(** * [LogoReplacer]: the stylesheet *)

Module LogoReplacerFacts.
Import Replacer OccFacts.

(** X12: [LogoReplacer.update_css_styles] is idempotent: the styles are
    appended at most once, and a second call changes no file and writes
    nothing, whatever the stylesheet was (missing, unreadable, with or
    without the marker). *)
Theorem update_css_styles_idempotent (st : state) :
  let st1 := LogoReplacer.update_css_styles st in
  let st2 := LogoReplacer.update_css_styles st1 in
  files st2 = files st1 /\ writes (accesses st2) = writes (accesses st1).
Proof.
  assert (Hsame : forall st0 c,
    files st0 !! css_file = Some (Text c) ->
    Str.contains "Client Logo Styles" c = true ->
    LogoReplacer.update_css_styles st0 = note (Read css_file) (note (Exists css_file) st0)).
  { intros st0 c Hc Hm. unfold LogoReplacer.update_css_styles. by rewrite Hc, Hm. }
  assert (Hnote : forall st0,
    files (note (Read css_file) (note (Exists css_file) st0)) = files st0 /\
    writes (accesses (note (Read css_file) (note (Exists css_file) st0)))
    = writes (accesses st0)).
  { intros st0. simpl. split; [done|].
    rewrite !ReplacerMore.writes_app. unfold writes. simpl. lia. }
  intros st1 st2. subst st2 st1.
  destruct (files st !! css_file) as [[c|d]|] eqn:Hc.
  - destruct (Str.contains "Client Logo Styles" c) eqn:Hm.
    + rewrite (Hsame st c Hc Hm).
      rewrite (Hsame _ c); [apply Hnote|done|done].
    + assert (H1 : files (LogoReplacer.update_css_styles st) !! css_file
                   = Some (Text (c +:+ LogoReplacer.logo_css))).
      { unfold LogoReplacer.update_css_styles. rewrite Hc, Hm. simpl.
        by rewrite lookup_insert_eq. }
      rewrite (Hsame _ _ H1); [apply Hnote|]. by apply contains_app_r.
  - assert (Hbin : forall st0, files st0 !! css_file = Some (Binary d) ->
      LogoReplacer.update_css_styles st0 = note (Read css_file) (note (Exists css_file) st0)).
    { intros st0 H0. unfold LogoReplacer.update_css_styles. by rewrite H0. }
    rewrite (Hbin st Hc). rewrite (Hbin _); [apply Hnote|done].
  - assert (Hnone : forall st0, files st0 !! css_file = None ->
      LogoReplacer.update_css_styles st0 = note (Exists css_file) st0).
    { intros st0 H0. unfold LogoReplacer.update_css_styles. by rewrite H0. }
    rewrite (Hnone st Hc). rewrite (Hnone _); [|done]. simpl. split; [done|].
    rewrite !ReplacerMore.writes_app. unfold writes. simpl. lia.
Qed.



End LogoReplacerFacts.

(** * From the crop to the published file *)

Section Reach.
Import Str StrFacts.

(** X14: the names carry a region through the stages.  Whatever the page
    name, the index and the rectangle of a region: its crop is a [*.png]
    file, which is what [optimize_logos] resizes; the large variant of the
    crop is a [*_large.png] file, which is what [create_white_versions]
    inverts, and matches the pattern its role is published by; its
    inverted variant matches the pattern of the white logo, and is a
    [*_large.png] file again. *)
Theorem region_names_reach_every_stage (page : string) (i : nat) (r : Region.t) :
  let crop := crop_output_name page i r in
  let large := variant_name (stem crop) "large" in
  wild "*.png" crop = true /\
  wild "*_large.png" large = true /\
  wild (role_pattern (Region.type r)) large = true /\
  wild "*white*large.png" (white_name large) = true /\
  wild "*_large.png" (white_name large) = true.
Proof.
  intros crop large.
  set (base := page +:+ "_logo_" +:+ str_nat i +:+ "_" +:+ role_name (Region.type r)).
  assert (Hcrop : crop = base +:+ ".png").
  { unfold crop, crop_output_name, base. by rewrite !app_assoc. }
  assert (Hbase : base <> EmptyString).
  { unfold base. apply app_not_nil. intros H.
    apply (f_equal String.length) in H. rewrite length_app in H. simpl in H. lia. }
  assert (Hlarge : large = base +:+ "_large.png").
  { unfold large. rewrite Hcrop, stem_png by done. reflexivity. }
  split; [|split; [|split; [|split]]].
  - rewrite Hcrop. by apply wild_star_absorb.
  - rewrite Hlarge. by apply wild_star_absorb.
  - rewrite Hlarge. unfold base. rewrite !app_assoc.
    destruct (Region.type r); simpl role_pattern; simpl role_name;
      do 4 apply wild_star_absorb; reflexivity.
  - unfold white_name. by apply wild_star_absorb.
  - unfold white_name. by apply wild_star_absorb.
Qed.

End Reach.

Lemma replace_in_files_counts_writes_witness :
  let st := Replacer.mkState
    {["index.html" := Replacer.Text "<img src=images/client-logo.png>";
      "menu.html" := Replacer.Text "<p>no logo</p>";
      "logo.txt" := Replacer.Text "client-logo.png"]} [] in
  let r := Replacer.replace_in_files ["index.html"; "menu.html"; "404.html"] 0 st in
  r.1 = 1%nat /\ writes (Replacer.accesses r.2) = 1%nat /\
  Replacer.files r.2 !! "logo.txt" = Some (Replacer.Text "client-logo.png").
Proof.
  intros st r.
  destruct (ReplacerMore.replace_in_files_counts_writes
              ["index.html"; "menu.html"; "404.html"] 0 st) as (Hw & _ & Hframe).
  fold r in Hw, Hframe.
  assert (Hr : r.1 = 1%nat) by (by vm_compute).
  split; [done|]. split.
  - rewrite Hw, Hr. reflexivity.
  - rewrite Hframe; [reflexivity|].
    rewrite !not_elem_of_cons. repeat split; try discriminate. apply not_elem_of_nil.
Defined.
